(** * di-sacala: the lazy dependency-injection container

    A shallow embedding of [src/di-sacala.ts].  A [DiContainer] is a
    JavaScript object whose own properties are accessor properties created
    by [Object.defineProperty]; the getters are closures.  The embedding
    keeps the object heap explicit, stores every closure together with the
    variables it captures, and follows what a user constructor does with
    the container it receives and with the state outside of it. *)

From stdpp Require Import gmap strings list sorting.
From Stdlib Require Import NArith Ascii.

Local Open Scope string_scope.
Local Open Scope list_scope.

(** ** Values, exceptions and outcomes *)

(** Identity of a [DiContainer] object. *)
Definition cref := nat.

(** Identity of a service instance, the object made by [new dependency(this)]. *)
Definition iref := nat.

(** A slot is a property of a container: the object and the key. *)
Definition slot : Type := cref * string.

(** What a property read on a container can yield: [undefined], a service
    instance, or a member found on the prototype chain (named by its key). *)
Inductive value :=
| VUndefined
| VInstance (i : iref)
| VInherited (name : string).

(** Thrown values: [new Error(message)], the engine's [TypeError], or
    whatever message a user constructor throws with. *)
Inductive exn :=
| Error (message : string)
| TypeError (message : string).

(** The outcome of running a piece of the program: it returns, it throws,
    or the fuel of the evaluator is exhausted (the call does not return). *)
Inductive outcome (A : Type) :=
| Returns (a : A)
| Throws (e : exn)
| OutOfFuel.
Arguments Returns {A} a.
Arguments Throws {A} e.
Arguments OutOfFuel {A}.

#[global] Instance value_eq_dec : EqDecision value.
Proof. solve_decision. Defined.

#[global] Instance exn_eq_dec : EqDecision exn.
Proof. solve_decision. Defined.

(** ** Services

    The constructor of a service is code of the user.  It receives the
    container ([dependencies]) and is followed here in what it does with
    it and in what decides its course:
    - it finishes normally ([Done]) or throws ([Throw]);
    - it reads [dependencies[key]] and goes on with the value read; an
      exception raised by the read leaves the constructor ([Get]);
    - it reads [dependencies[key]] inside [try { } catch (e) { }] and goes
      on with the value read, or with the exception caught ([Try]);
    - it consults ([Load]) or assigns ([Store]) a variable that lives
      outside the containers: a module-level [let], a static field, a
      field of some object.  The variables hold numbers and start at 0.

    Constructors that register or merge services while they run, or that
    enumerate the keys of the container, are not followed. *)
Inductive ctor_body :=
| Done
| Throw (e : exn)
| Get (key : string) (k : value -> ctor_body)
| Try (key : string) (k : value -> ctor_body) (handler : exn -> ctor_body)
| Load (var : string) (k : nat -> ctor_body)
| Store (var : string) (x : nat) (k : ctor_body).

(** A service class: [dependency.prototype.getServiceName()] and the
    constructor run by [new dependency(this)]. *)
Record class := Class {
  getServiceName : string;
  ctor : ctor_body
}.

(** ** Getters and the heap *)

(** The two arrow functions installed as [get]:
    - in [inject]:  [() => instance ?? (instance = new dependency(this))],
      kept with the captured variables [instance], [dependency], [this];
    - in [injectContainer]:  [() => other[key]], with [other] and [key]. *)
Inductive getter :=
| GLazy (instance : option iref) (dependency : class) (this : cref)
| GForward (other : cref) (key : string).

(** The heap gives every container its own properties in creation order (a
    container absent from the map has none, as one just made by
    [new DiContainer()]), and [constructed] records each
    evaluation of [new dependency(this)], oldest first, by the slot whose
    getter evaluated it.  The n-th object constructed is instance n.
    [vars] holds the variables outside the containers that constructors
    assign; a variable absent from the map was never assigned. *)
Record world := World {
  heap : gmap cref (list (string * getter));
  constructed : list slot;
  vars : gmap string nat
}.

Definition empty_world : world := World ∅ [] ∅.

Definition props (w : world) (obj : cref) : list (string * getter) :=
  default [] (heap w !! obj).

Fixpoint assoc (key : string) (ps : list (string * getter)) : option getter :=
  match ps with
  | [] => None
  | (k, g) :: ps' => if decide (k = key) then Some g else assoc key ps'
  end.

Fixpoint assoc_set (key : string) (g : getter) (ps : list (string * getter))
  : list (string * getter) :=
  match ps with
  | [] => []
  | (k, g0) :: ps' =>
      if decide (k = key) then (k, g) :: ps' else (k, g0) :: assoc_set key g ps'
  end.

(** The own property descriptor of [obj] under [key], if any. *)
Definition own (w : world) (obj : cref) (key : string) : option getter :=
  assoc key (props w obj).

(** [const has = (obj, key) => Object.prototype.hasOwnProperty.call(obj, key)] *)
Definition has (w : world) (obj : cref) (key : string) : bool :=
  match own w obj key with Some _ => true | None => false end.

Definition add_property (w : world) (obj : cref) (name : string) (g : getter)
  : world :=
  World (<[obj := props w obj ++ [(name, g)]]> (heap w)) (constructed w) (vars w).

(** [Object.defineProperty(obj, name, { enumerable: true, configurable:
    false, get })].  Every own property of a container is created here, so
    it is never configurable, and defining it again is a [TypeError]. *)
Definition defineProperty (w : world) (obj : cref) (name : string) (g : getter)
  : outcome unit * world :=
  if has w obj name
  then (Throws (TypeError ("Cannot redefine property: " +:+ name)), w)
  else (Returns (), add_property w obj name g).

(** ** The prototype chain *)

(** [class DiContainer { constructor() {} inject(..) {..} injectContainer(..) {..} }] *)
Definition DiContainer_prototype : list string :=
  ["constructor"; "inject"; "injectContainer"].

(** The members every ordinary object inherits from the host's
    [Object.prototype]. *)
Definition Object_prototype : list string :=
  ["constructor"; "__defineGetter__"; "__defineSetter__"; "hasOwnProperty";
   "__lookupGetter__"; "__lookupSetter__"; "isPrototypeOf";
   "propertyIsEnumerable"; "toString"; "valueOf"; "__proto__";
   "toLocaleString"].

Definition inherited (key : string) : bool :=
  bool_decide (key ∈ DiContainer_prototype ++ Object_prototype).

(** A read of [key] that finds no own property goes up the prototype chain. *)
Definition proto_get (key : string) : value :=
  if inherited key then VInherited key else VUndefined.

(** ** Reading a property *)

(** The object that the next evaluation of [new dependency(this)] yields.
    Instances are named by the evaluation that yielded them: equal names
    are one object.  (A constructor that returns an object of its own makes
    two evaluations yield one object; nothing below concludes that two
    instances are different objects.) *)
Definition fresh_instance (w : world) : iref := length (constructed w).

Definition record_new (w : world) (s : slot) : world :=
  World (heap w) (constructed w ++ [s]) (vars w).

(** The value of a variable outside the containers, and its assignment. *)
Definition load (w : world) (var : string) : nat := default 0 (vars w !! var).

Definition store (w : world) (var : string) (x : nat) : world :=
  World (heap w) (constructed w) (<[var := x]> (vars w)).

(** Assignment to the [instance] variable captured by the getter of [s]. *)
Definition set_instance (w : world) (s : slot) (i : iref) : world :=
  match own w s.1 s.2 with
  | Some (GLazy _ dependency this) =>
      World (<[s.1 := assoc_set s.2 (GLazy (Some i) dependency this) (props w s.1)]> (heap w))
            (constructed w) (vars w)
  | _ => w
  end.

(** The constructor body, run for [new dependency(this)] with the reader
    [get] of the properties of [this]. *)
Fixpoint run (get : world -> cref -> string -> outcome value * world)
    (this : cref) (b : ctor_body) (w : world) : outcome unit * world :=
  match b with
  | Done => (Returns (), w)
  | Throw e => (Throws e, w)
  | Get key k =>
      match get w this key with
      | (Returns v, w') => run get this (k v) w'
      | (Throws e, w') => (Throws e, w')
      | (OutOfFuel, w') => (OutOfFuel, w')
      end
  | Try key k handler =>
      match get w this key with
      | (Returns v, w') => run get this (k v) w'
      | (Throws e, w') => run get this (handler e) w'
      | (OutOfFuel, w') => (OutOfFuel, w')
      end
  | Load var k => run get this (k (load w var)) w
  | Store var x k => run get this k (store w var x)
  end.

(** [obj[key]]: the own getter is called if there is one, otherwise the
    prototype chain answers.  The fuel bounds the depth of nested getter
    calls: [OutOfFuel] is a nesting deeper than the fuel, and a read that
    is [OutOfFuel] with every fuel nests without end.  (An engine ends such
    a nesting when its stack is exhausted; what the program does then is
    not followed.) *)
Fixpoint get (fuel : nat) (w : world) (obj : cref) (key : string)
  : outcome value * world :=
  match fuel with
  | 0 => (OutOfFuel, w)
  | S n =>
      match own w obj key with
      | None => (Returns (proto_get key), w)
      | Some (GLazy (Some i) _ _) => (Returns (VInstance i), w)
      | Some (GLazy None dependency this) =>
          (* instance ?? (instance = new dependency(this)) *)
          let i := fresh_instance w in
          match run (get n) this (ctor dependency) (record_new w (obj, key)) with
          | (Returns _, w') => (Returns (VInstance i), set_instance w' (obj, key) i)
          | (Throws e, w') => (Throws e, w')
          | (OutOfFuel, w') => (OutOfFuel, w')
          end
      | Some (GForward other key') => get n w other key'
      end
  end.

(** ** Registration *)

(** [inject(dependency)] *)
Definition inject (w : world) (this : cref) (dependency : class)
  : outcome cref * world :=
  let name := getServiceName dependency in
  if has w this name
  then (Throws (Error ("Duplicate service name: " +:+ name)), w)
  else
    match defineProperty w this name (GLazy None dependency this) with
    | (Returns _, w') => (Returns this, w')
    | (Throws e, w') => (Throws e, w')
    | (OutOfFuel, w') => (OutOfFuel, w')
    end.

(** ** Enumeration order of [for (const key in other)]

    Own enumerable string keys are visited with the array indices first, in
    ascending numeric order, then the other keys in creation order.  The
    inherited members are not enumerable. *)

Definition digit (a : ascii) : option N :=
  let n := N_of_ascii a in
  if ((48 <=? n) && (n <=? 57))%N then Some (n - 48)%N else None.

Fixpoint digits (s : string) (acc : N) : option N :=
  match s with
  | EmptyString => Some acc
  | String a s' =>
      match digit a with
      | Some d => digits s' (10 * acc + d)%N
      | None => None
      end
  end.

(** An array index is a canonical decimal numeral below 2^32 - 1. *)
Definition array_index (s : string) : option N :=
  match s with
  | EmptyString => None
  | String a s' =>
      if decide (a = "0"%char)
      then (if decide (s' = EmptyString) then Some 0%N else None)
      else match digits s 0 with
           | Some n => if (n <? 4294967295)%N then Some n else None
           | None => None
           end
  end.

Fixpoint insert_sorted (n : N) (key : string) (l : list (N * string))
  : list (N * string) :=
  match l with
  | [] => [(n, key)]
  | (m, k) :: l' =>
      if (n <? m)%N then (n, key) :: l else (m, k) :: insert_sorted n key l'
  end.

Fixpoint index_keys (keys : list string) : list (N * string) :=
  match keys with
  | [] => []
  | key :: keys' =>
      match array_index key with
      | Some n => insert_sorted n key (index_keys keys')
      | None => index_keys keys'
      end
  end.

Definition is_index (key : string) : bool :=
  match array_index key with Some _ => true | None => false end.

Definition own_keys (w : world) (obj : cref) : list string :=
  (props w obj).*1.

Definition for_in (w : world) (obj : cref) : list string :=
  (index_keys (own_keys w obj)).*2 ++ filter (λ key, is_index key = false) (own_keys w obj).

(** ** Merging *)

(** The first loop of [injectContainer]: the pre-check. *)
Fixpoint check_keys (w : world) (this other : cref) (keys : list string)
  : outcome unit :=
  match keys with
  | [] => Returns ()
  | key :: keys' =>
      if has w other key
      then
        if has w this key
        then Throws (Error ("Containers have duplicated keys: " +:+ key))
        else check_keys w this other keys'
      else check_keys w this other keys'
  end.

(** The second loop of [injectContainer]: one forwarding getter per key. *)
Fixpoint copy_keys (this other : cref) (keys : list string) (w : world)
  : outcome unit * world :=
  match keys with
  | [] => (Returns (), w)
  | key :: keys' =>
      if has w other key
      then
        match defineProperty w this key (GForward other key) with
        | (Returns _, w') => copy_keys this other keys' w'
        | (Throws e, w') => (Throws e, w')
        | (OutOfFuel, w') => (OutOfFuel, w')
        end
      else copy_keys this other keys' w
  end.

(** [injectContainer(other)] *)
Definition injectContainer (w : world) (this other : cref)
  : outcome cref * world :=
  match check_keys w this other (for_in w other) with
  | Returns _ =>
      match copy_keys this other (for_in w other) w with
      | (Returns _, w') => (Returns this, w')
      | (Throws e, w') => (Throws e, w')
      | (OutOfFuel, w') => (OutOfFuel, w')
      end
  | Throws e => (Throws e, w)
  | OutOfFuel => (OutOfFuel, w)
  end.

(** ** The container over its lifetime *)

(** The operations a program performs on containers. *)
Inductive op :=
| Inject (this : cref) (dependency : class)
| InjectContainer (this other : cref)
| Read (fuel : nat) (obj : cref) (key : string).

Definition exec (w : world) (o : op) : world :=
  match o with
  | Inject this dependency => (inject w this dependency).2
  | InjectContainer this other => (injectContainer w this other).2
  | Read fuel obj key => (get fuel w obj key).2
  end.

Definition exec_all (w : world) (ops : list op) : world := foldl exec w ops.

(** The outcomes of a sequence of reads, performed one after the other. *)
Fixpoint read_all (w : world) (reads : list (nat * cref * string))
  : list (outcome value) :=
  match reads with
  | [] => []
  | (fuel, obj, key) :: reads' =>
      let (r, w') := get fuel w obj key in r :: read_all w' reads'
  end.

(** How often [new dependency(this)] was evaluated by the getter of [s]. *)
Definition invocations (w : world) (s : slot) : nat :=
  length (filter (λ s', s' = s) (constructed w)).

(** ** Sample services and containers *)

Definition Plain (name : string) : class := Class name Done.

(** A service whose constructor throws. *)
Definition Failing (name message : string) : class :=
  Class name (Throw (Error message)).

(** A service whose constructor reads [dep] and refuses to be built when
    the container does not expose it. *)
Definition Needs (name dep : string) : class :=
  Class name (Get dep (λ v, match v with
                            | VUndefined => Throw (Error ("missing " +:+ dep))
                            | _ => Done
                            end)).

Definition world_of (o : outcome cref * world) : world := o.2.

(** Container 0 binds "a", then "b" as well. *)
Definition w_a : world := world_of (inject empty_world 0 (Plain "a")).
Definition w_ab : world := world_of (inject w_a 0 (Plain "b")).

(** Container 0 binds "a", container 1 binds "b". *)
Definition w_a_b : world := world_of (inject w_a 1 (Plain "b")).

(** Two containers that both bind "logger" and "random". *)
Definition w_both : world :=
  world_of (inject (world_of (inject (world_of (inject (world_of
    (inject empty_world 0 (Plain "logger"))) 0 (Plain "random")))
    1 (Plain "logger"))) 1 (Plain "random")).

(** "a" needs "b"; "a" is registered first, "b" after it. *)
Definition w_needs : world := world_of (inject empty_world 0 (Needs "a" "b")).
Definition w_needs_b : world := world_of (inject w_needs 0 (Plain "b")).

(** "a" needs "b" and "b" needs "a". *)
Definition w_circular : world :=
  world_of (inject w_needs 0 (Needs "b" "a")).

(** Container 0 binds "a" to a service whose constructor throws. *)
Definition w_failing : world := world_of (inject empty_world 0 (Failing "a" "boom")).

(** A service that counts how often its constructor runs:
    [let count = 0;  constructor(di) { count = count + 1; }] *)
Definition Counting (name : string) : class :=
  Class name (Load "count" (λ count, Store "count" (S count) Done)).

(** A service that does without its dependency when reading it throws:
    [constructor(di) { try { di[dep]; } catch (e) { } }] *)
Definition Tolerant (name dep : string) : class :=
  Class name (Try dep (λ _, Done) (λ _, Done)).

(** A service that reads its own name the first time its constructor is
    entered:
    [let entered = 0;]
    [constructor(di) { if (entered === 0) { entered = 1; di[name]; } }] *)
Definition Reentrant (name : string) : class :=
  Class name (Load "entered" (λ entered,
    match entered with
    | 0 => Store "entered" 1 (Get name (λ _, Done))
    | _ => Done
    end)).

(** The same, with a [throw] after the read of its own name. *)
Definition ReentrantFailing (name message : string) : class :=
  Class name (Load "entered" (λ entered,
    match entered with
    | 0 => Store "entered" 1 (Get name (λ _, Throw (Error message)))
    | _ => Done
    end)).

Definition w_reentrant : world :=
  world_of (inject empty_world 0 (Reentrant "a")).

Definition w_reentrant_failing : world :=
  world_of (inject empty_world 0 (ReentrantFailing "a" "boom")).

Definition exn_message (e : exn) : string :=
  match e with Error m => m | TypeError m => m end.

(** [mentions name msg]: the text [msg] contains [name]. *)
Fixpoint mentions (name msg : string) : bool :=
  String.prefix name msg ||
  match msg with
  | EmptyString => false
  | String _ msg' => mentions name msg'
  end.

(** ** Notions used by the statements *)

(** The error of the pre-check, for the key it stops at. *)
Definition duplicate_keys (key : string) : exn :=
  Error ("Containers have duplicated keys: " +:+ key).

(** The forwarding getters made by the second loop, in order. *)
Definition forwards (w : world) (other : cref) (keys : list string)
  : list (string * getter) :=
  (λ key, (key, GForward other key)) <$> filter (λ key, has w other key = true) keys.

(** The containers have the same keys in the same order. *)
Definition same_keys (w w' : world) : Prop :=
  ∀ obj, own_keys w' obj = own_keys w obj.

(** No container has two properties under one key. *)
Definition well_keyed (w : world) : Prop := ∀ obj, NoDup (own_keys w obj).

(** A getter keeps its code and its captured [dependency], [this], [other]
    and [key]; an [instance] variable that holds an object keeps it. *)
Definition getter_grows (g g' : getter) : Prop :=
  match g, g' with
  | GLazy None d t, GLazy _ d' t' => d = d' ∧ t = t'
  | GLazy (Some i) d t, GLazy (Some i') d' t' => i = i' ∧ d = d' ∧ t = t'
  | GForward o k, GForward o' k' => o = o' ∧ k = k'
  | _, _ => False
  end.

(** [extends w w']: every property of [w] is still there in [w']. *)
Definition extends (w w' : world) : Prop :=
  ∀ obj key g, own w obj key = Some g →
    ∃ g', own w' obj key = Some g' ∧ getter_grows g g'.

(** [grows w w']: moreover no property was added. *)
Definition grows (w w' : world) : Prop :=
  extends w w' ∧ ∀ obj key, own w obj key = None → own w' obj key = None.

(** [keeps s w w']: from [w] to [w'] nothing was removed or added, and if
    the slot [s] held its instance in [w], its constructor was not entered. *)
Definition keeps (s : slot) (w w' : world) : Prop :=
  grows w w' ∧
  ∀ i d t, own w s.1 s.2 = Some (GLazy (Some i) d t) →
    invocations w' s = invocations w s.

(** Two worlds that no lookup tells apart: the same constructions so far,
    the same variables outside the containers and the same getter under
    every key of every container. *)
Definition same_lookups (w1 w2 : world) : Prop :=
  constructed w1 = constructed w2 ∧ vars w1 = vars w2 ∧
  ∀ obj key, own w1 obj key = own w2 obj key.

(** A relation between worlds that an assignment to a variable outside
    the containers respects. *)
Class StoreInvariant (R : relation world) :=
  store_invariant : ∀ w var x, R w (store w var x).

(** The value a read finds without calling a constructor, if it finds one
    within [fuel] getter calls. *)
Fixpoint peek (fuel : nat) (w : world) (obj : cref) (key : string)
  : option value :=
  match fuel with
  | 0 => None
  | S n =>
      match own w obj key with
      | None => Some (proto_get key)
      | Some (GLazy (Some i) _ _) => Some (VInstance i)
      | Some (GLazy None _ _) => None
      | Some (GForward other key') => peek n w other key'
      end
  end.

(** The outcome of the constructor behind the outcome of a getter. *)
Definition forget (r : outcome value) : outcome unit :=
  match r with
  | Returns _ => Returns ()
  | Throws e => Throws e
  | OutOfFuel => OutOfFuel
  end.

(** ** Constructors that only read

    A constructor that takes its dependencies from the container and does
    nothing else: no [try], no variable outside the containers. *)
Fixpoint script (b : ctor_body) : Prop :=
  match b with
  | Done | Throw _ => True
  | Get _ k => ∀ v, script (k v)
  | Try _ _ _ | Load _ _ | Store _ _ _ => False
  end.

(** Every constructor of the world is one. *)
Definition scripted (w : world) : Prop :=
  ∀ obj key o d t, own w obj key = Some (GLazy o d t) → script (ctor d).

(** ** Constructors in progress

    While a read is being evaluated, some constructors have been entered
    and wait for a read of their own: the call stack.  The following
    notions describe it. *)

(** [route w obj key s]: the forwarding getters lead from [obj[key]] to the
    slot [s]. *)
Inductive route (w : world) : cref → string → slot → Prop :=
| route_here obj key : route w obj key (obj, key)
| route_forward obj key other key' s :
    own w obj key = Some (GForward other key') →
    route w other key' s →
    route w obj key s.

(** A constructor entered by the getter of [p_slot] and stopped at the read
    of [p_key], with the rest of its body [p_k]. *)
Record pending := Pending {
  p_slot : slot;
  p_dep : class;
  p_this : cref;
  p_key : string;
  p_k : value → ctor_body
}.

(** From any later world, the constructor of [dep] run from its start gets
    to the rest [b] of its body again, unless the fuel is exhausted first. *)
Definition replays (w : world) (dep : class) (this : cref) (b : ctor_body) : Prop :=
  ∀ u m, grows w u →
    (run (get m) this (ctor dep) u).1 = OutOfFuel ∨
    run (get m) this (ctor dep) u = run (get m) this b u.

Definition pending_ok (w : world) (p : pending) : Prop :=
  own w (p_slot p).1 (p_slot p).2 = Some (GLazy None (p_dep p) (p_this p)) ∧
  replays w (p_dep p) (p_this p) (Get (p_key p) (p_k p)).

(** The stack, innermost constructor first: the read each constructor waits
    for leads to the slot of the next inner one, and the innermost read
    leads to [target]. *)
Fixpoint chain (w : world) (stack : list pending) (target : slot) : Prop :=
  match stack with
  | [] => True
  | p :: stack' =>
      pending_ok w p ∧ route w (p_this p) (p_key p) target ∧
      chain w stack' (p_slot p)
  end.

(** The slots of the stack are as unresolved in [t] as they were in [s],
    and their constructors were not entered in between. *)
Definition untouched (stack : list pending) (s t : world) : Prop :=
  ∀ p, p ∈ stack →
    own t (p_slot p).1 (p_slot p).2 = Some (GLazy None (p_dep p) (p_this p)) ∧
    invocations t (p_slot p) = invocations s (p_slot p).

(** [idle s w w']: from [w] to [w'] the constructor of the slot [s] was
    entered no fewer times, and if it was not entered at all, the property
    of the slot is as it was. *)
Definition idle (s : slot) (w w' : world) : Prop :=
  (invocations w s ≤ invocations w' s)%nat ∧
  (invocations w' s = invocations w s → own w' s.1 s.2 = own w s.1 s.2).

(** ** Chained registration

    [new DiContainer().inject(A).inject(B)...]: each call is made on what
    the one before returned, and the first exception ends the chain. *)
Fixpoint inject_all (w : world) (this : cref) (dependencies : list class)
  : outcome cref * world :=
  match dependencies with
  | [] => (Returns this, w)
  | dependency :: rest =>
      match inject w this dependency with
      | (Returns this', w') => inject_all w' this' rest
      | (Throws e, w') => (Throws e, w')
      | (OutOfFuel, w') => (OutOfFuel, w')
      end
  end.

(** The operations that register: every one but a read. *)
Definition is_registration (o : op) : bool :=
  match o with
  | Read _ _ _ => false
  | _ => true
  end.

(** [kept w w']: every property of [w] is in [w'] exactly as it was. *)
Definition kept (w w' : world) : Prop :=
  ∀ obj key g, own w obj key = Some g → own w' obj key = Some g.

(** [log_grows w w']: the constructions of [w] are the first ones of [w']. *)
Definition log_grows (w w' : world) : Prop :=
  constructed w `prefix_of` constructed w'.

(** The slot made by [inject] that a key leads to through the forwarding
    getters, if it gets there within [fuel] getters. *)
Fixpoint resolve (fuel : nat) (w : world) (obj : cref) (key : string)
  : option slot :=
  match fuel with
  | 0 => None
  | S n =>
      match own w obj key with
      | Some (GLazy _ _ _) => Some (obj, key)
      | Some (GForward other key') => resolve n w other key'
      | None => None
      end
  end.

(** Every bound key leads to a slot made by [inject]. *)
Definition grounded (w : world) : Prop :=
  ∀ obj key, has w obj key = true → ∃ n s, resolve n w obj key = Some s.

(** "a" reads itself while it is constructed. *)
Definition w_selfish : world := world_of (inject empty_world 0 (Needs "a" "a")).

(** ** The greeting

    [hello(name = 'World')]: the argument may be left out. *)
Definition hello (name : option string) : string :=
  "Hello, " +:+ default "World" name +:+ "!".

(** ** The compile-time checks

    The conditional types [Append] and [Merge] look at the keys of the
    container types and at the name of the service, a string literal type.
    A type is kept here by what they look at: an object type by the set of
    its keys, a union of string literal types by the set of its strings. *)
Inductive static :=
| SObject (keys : gset string)
| SLiterals (messages : gset string).

#[global] Instance static_eq_dec : EqDecision static.
Proof. solve_decision. Defined.

(** [keyof DiContainer]: the public members of the class. *)
Definition keyof_DiContainer : gset string := {["inject"; "injectContainer"]}.

(** What [Di<S>] is applied to: a service, by its [Name], or a tuple. *)
#[warnings="-register-all"]
Inductive services :=
| Service (Name : string)
| Tuple (items : list services).

(** [Di<S>], by its keys: [Di<S1> & Di<Tail>] for a tuple, [unknown] for the
    empty tuple, [{ [Key in Name]: S }] for a service. *)
Fixpoint Di (S : services) : gset string :=
  match S with
  | Service Name => {[Name]}
  | Tuple items =>
      (fix Di_tuple (l : list services) : gset string :=
         match l with
         | [] => ∅
         | S1 :: Tail => Di S1 ∪ Di_tuple Tail
         end) items
  end.

(** [CheckReservedField<Name, T>] *)
Definition CheckReservedField (Name : string) (T : gset string) : static :=
  if decide (Name ∈ keyof_DiContainer)
  then SLiterals {["Reserved field name: " +:+ Name]}
  else SObject T.

(** [Append<Container, Service>] for a service named [Name]:
    [Container extends { [Key in Name]: unknown }] holds when [Name] is a
    key of [Container]. *)
Definition Append (Container : gset string) (Name : string) : static :=
  if decide (Name ∈ Container)
  then SLiterals {["Duplicate service name: " +:+ Name]}
  else CheckReservedField Name (Container ∪ Di (Service Name)).

(** [Merge<DI1, DI2>]: the intersection of the two unions of keys, without
    "inject" and "injectContainer", is [never] when it is empty; otherwise
    the template distributes over the keys that are left. *)
Definition Merge (DI1 DI2 : gset string) : static :=
  let common :=
    (DI1 ∖ {["inject"; "injectContainer"]}) ∩ (DI2 ∖ {["inject"; "injectContainer"]}) in
  if decide (common = ∅)
  then SObject (DI1 ∪ DI2)
  else SLiterals (set_map (λ key, "Containers have duplicated keys: " +:+ key) common).

(** [typed w obj T]: the static type [T] describes the container [obj] of
    [w]: its keys are the methods of the class and the names bound in the
    container, each bound once and none of them a method name. *)
Definition typed (w : world) (obj : cref) (T : gset string) : Prop :=
  NoDup (own_keys w obj) ∧
  Forall (λ key, key ∉ keyof_DiContainer) (own_keys w obj) ∧
  T = list_to_set (own_keys w obj) ∪ keyof_DiContainer.

(** The type of a container in which "a" is bound. *)
Definition T_a : gset string := list_to_set ["a"] ∪ keyof_DiContainer.

(** The type of a container in which "b" is bound. *)
Definition T_b : gset string := list_to_set ["b"] ∪ keyof_DiContainer.

(** * Properties *)

(** ** Own properties under the heap updates *)

Lemma assoc_app key ps qs :
  assoc key (ps ++ qs) =
  match assoc key ps with Some g => Some g | None => assoc key qs end.
Proof.
  induction ps as [|[k g] ps IH]; simpl; [done|].
  by destruct (decide (k = key)).
Qed.

Lemma assoc_set_eq key g ps :
  assoc key (assoc_set key g ps) =
  match assoc key ps with Some _ => Some g | None => None end.
Proof.
  induction ps as [|[k g0] ps IH]; simpl; [done|].
  destruct (decide (k = key)) as [->|Hne]; simpl.
  - by rewrite decide_True.
  - by rewrite decide_False.
Qed.

Lemma assoc_set_ne key key' g ps :
  key ≠ key' → assoc key' (assoc_set key g ps) = assoc key' ps.
Proof.
  intros Hne. induction ps as [|[k g0] ps IH]; simpl; [done|].
  destruct (decide (k = key)) as [->|Hk]; simpl.
  - by rewrite !decide_False.
  - destruct (decide (k = key')); [done|apply IH].
Qed.

Lemma assoc_set_keys key g ps : (assoc_set key g ps).*1 = ps.*1.
Proof.
  induction ps as [|[k g0] ps IH]; simpl; [done|].
  destruct (decide (k = key)) as [->|Hk]; simpl; [done|by f_equal].
Qed.

Lemma assoc_Some_keys key g ps : assoc key ps = Some g → key ∈ ps.*1.
Proof.
  induction ps as [|[k g0] ps IH]; simpl; [done|].
  destruct (decide (k = key)) as [->|Hk]; intros H.
  - apply list_elem_of_here.
  - apply list_elem_of_further, IH, H.
Qed.

Lemma assoc_None_keys key ps : assoc key ps = None ↔ key ∉ ps.*1.
Proof.
  induction ps as [|[k g0] ps IH]; simpl.
  - split; [intros _ H; inversion H|done].
  - destruct (decide (k = key)) as [->|Hk].
    + split; [done|]. intros H. exfalso. apply H, list_elem_of_here.
    + rewrite IH, not_elem_of_cons. split; [by intros|by intros [_ ?]].
Qed.

Lemma props_add_property w obj name g obj' :
  props (add_property w obj name g) obj' =
  if decide (obj = obj') then props w obj ++ [(name, g)] else props w obj'.
Proof.
  unfold props, add_property; simpl.
  destruct (decide (obj = obj')) as [->|Hne].
  - by rewrite lookup_insert_eq.
  - by rewrite lookup_insert_ne.
Qed.

Lemma own_add_property_eq w obj name g :
  own w obj name = None → own (add_property w obj name g) obj name = Some g.
Proof.
  unfold own. intros H. rewrite props_add_property, decide_True by done.
  rewrite assoc_app, H. simpl. by rewrite decide_True.
Qed.

Lemma own_add_property_ne w obj name g obj' key :
  (obj, name) ≠ (obj', key) →
  own (add_property w obj name g) obj' key = own w obj' key.
Proof.
  unfold own. intros Hne. rewrite props_add_property.
  destruct (decide (obj = obj')) as [->|Hobj]; [|done].
  rewrite assoc_app. destruct (assoc key (props w obj')); [done|].
  simpl. rewrite decide_False; [done|congruence].
Qed.

Lemma has_true w obj key : has w obj key = true ↔ is_Some (own w obj key).
Proof.
  unfold has. destruct (own w obj key); split; done.
Qed.

Lemma has_false w obj key : has w obj key = false ↔ own w obj key = None.
Proof. unfold has. by destruct (own w obj key). Qed.

Lemma has_own_keys w obj key : has w obj key = true ↔ key ∈ own_keys w obj.
Proof.
  unfold own_keys. rewrite has_true. unfold own.
  destruct (assoc key (props w obj)) eqn:E.
  - split; [intros _; by eapply assoc_Some_keys|by eexists].
  - apply assoc_None_keys in E. split; [by intros [? ?]|done].
Qed.

(** ** The enumeration visits every own key exactly once *)

Lemma insert_sorted_perm n key l : insert_sorted n key l ≡ₚ (n, key) :: l.
Proof.
  induction l as [|[m k] l IH]; simpl; [done|].
  destruct (n <? m)%N; [done|].
  rewrite IH. apply Permutation_swap.
Qed.

Lemma index_keys_perm keys :
  (index_keys keys).*2 ≡ₚ filter (λ key, is_index key = true) keys.
Proof.
  induction keys as [|key keys IH]; simpl; [done|].
  rewrite filter_cons.
  destruct (decide (is_index key = true)) as [Hi|Hi]; unfold is_index in Hi;
    destruct (array_index key) as [n|]; try done.
  rewrite insert_sorted_perm. simpl. by rewrite IH.
Qed.

Lemma filter_split_perm (keys : list string) :
  filter (λ key, is_index key = true) keys ++
  filter (λ key, is_index key = false) keys ≡ₚ keys.
Proof.
  induction keys as [|key keys IH]; simpl; [done|].
  rewrite !filter_cons. destruct (is_index key) eqn:E.
  - rewrite decide_True, decide_False by done. simpl. by rewrite IH.
  - rewrite decide_False, decide_True by done.
    rewrite <- Permutation_middle. by rewrite IH.
Qed.

(** Indices come first, by value; "01" and 2^32 - 1 are not indices. *)
Example for_in_order :
  let w := exec_all empty_world
             (Inject 0 <$> [Plain "b"; Plain "10"; Plain "4294967295";
                            Plain "9"; Plain "a"; Plain "01"; Plain "0"]) in
  for_in w 0 = ["0"; "9"; "10"; "b"; "4294967295"; "a"; "01"].
Proof. reflexivity. Qed.

Lemma for_in_perm w obj : for_in w obj ≡ₚ own_keys w obj.
Proof. unfold for_in. rewrite index_keys_perm. apply filter_split_perm. Qed.

Lemma for_in_has w obj key : key ∈ for_in w obj ↔ has w obj key = true.
Proof. by rewrite for_in_perm, has_own_keys. Qed.

Lemma for_in_NoDup w obj : NoDup (own_keys w obj) → NoDup (for_in w obj).
Proof. by rewrite for_in_perm. Qed.

(** ** The two loops of [injectContainer] *)

Lemma check_keys_throws w this other keys e :
  check_keys w this other keys = Throws e →
  ∃ pre key post,
    keys = pre ++ key :: post ∧ e = duplicate_keys key ∧
    has w other key = true ∧ has w this key = true ∧
    ∀ k, k ∈ pre → has w other k = true → has w this k = false.
Proof.
  induction keys as [|key keys IH]; simpl; [done|].
  destruct (has w other key) eqn:Ho; [destruct (has w this key) eqn:Ht|].
  - intros [= <-]. exists [], key, keys. repeat split; try done.
    intros k Hk. inversion Hk.
  - intros (pre & k0 & post & -> & -> & ? & ? & Hpre)%IH.
    exists (key :: pre), k0, post. repeat split; try done.
    intros k [->|Hk]%elem_of_cons; [done|by apply Hpre].
  - intros (pre & k0 & post & -> & -> & ? & ? & Hpre)%IH.
    exists (key :: pre), k0, post. repeat split; try done.
    intros k [->|Hk]%elem_of_cons; [congruence|by apply Hpre].
Qed.

Lemma check_keys_not_diverging w this other keys :
  check_keys w this other keys ≠ OutOfFuel.
Proof.
  induction keys as [|key keys IH]; simpl; [done|].
  by destruct (has w other key), (has w this key).
Qed.

Lemma check_keys_returns w this other keys :
  check_keys w this other keys = Returns () ↔
  ∀ k, k ∈ keys → has w other k = true → has w this k = false.
Proof.
  induction keys as [|key keys IH]; simpl.
  - split; [intros _ k Hk; inversion Hk|done].
  - destruct (has w other key) eqn:Ho; [destruct (has w this key) eqn:Ht|].
    + split; [done|]. intros H. specialize (H key (list_elem_of_here _ _) Ho).
      congruence.
    + rewrite IH. split.
      * intros H k [->|Hk]%elem_of_cons; [done|by apply H].
      * intros H k Hk. apply H. by apply list_elem_of_further.
    + rewrite IH. split.
      * intros H k [->|Hk]%elem_of_cons; [congruence|by apply H].
      * intros H k Hk. apply H. by apply list_elem_of_further.
Qed.

Lemma has_add_property w obj name g obj' key :
  has (add_property w obj name g) obj' key =
  has w obj' key || bool_decide ((obj, name) = (obj', key)).
Proof.
  case_bool_decide as Heq.
  - injection Heq as <- <-. unfold has at 1, own.
    rewrite props_add_property, decide_True, assoc_app by done.
    unfold has, own. destruct (assoc name (props w obj)); [done|].
    simpl. by rewrite decide_True.
  - unfold has. rewrite own_add_property_ne by done.
    by destruct (own w obj' key).
Qed.

Lemma filter_ext_elem (P Q : string → Prop)
    `{!∀ x, Decision (P x)} `{!∀ x, Decision (Q x)} (l : list string) :
  (∀ x, x ∈ l → P x ↔ Q x) → filter P l = filter Q l.
Proof.
  induction l as [|x l IH]; intros Hext; [done|].
  rewrite !filter_cons.
  rewrite IH by (intros y Hy; apply Hext; by apply list_elem_of_further).
  pose proof (Hext x (list_elem_of_here _ _)) as Hx.
  destruct (decide (P x)) as [HP|HP], (decide (Q x)) as [HQ|HQ]; try done;
    exfalso; tauto.
Qed.

Lemma copy_keys_returns this other keys w :
  NoDup keys →
  (∀ k, k ∈ keys → has w other k = true → has w this k = false) →
  ∃ w', copy_keys this other keys w = (Returns (), w') ∧
        constructed w' = constructed w ∧
        (∀ obj, obj ≠ this → props w' obj = props w obj) ∧
        props w' this = props w this ++ forwards w other keys.
Proof.
  intros Hnd. revert w. induction Hnd as [|key keys Hnotin Hnd IH]; intros w Hfree.
  - exists w. simpl. repeat split; try done. unfold forwards.
    by rewrite filter_nil, app_nil_r.
  - simpl. unfold forwards. rewrite filter_cons.
    destruct (has w other key) eqn:Ho.
    + rewrite decide_True by done. unfold defineProperty.
      rewrite (Hfree key (list_elem_of_here _ _) Ho).
      set (w1 := add_property w this key (GForward other key)).
      assert (Hsame : ∀ k, k ∈ keys → ∀ obj, has w1 obj k = has w obj k).
      { intros k Hk obj. unfold w1. rewrite has_add_property.
        rewrite bool_decide_eq_false_2; [by rewrite orb_false_r|].
        intros [= _ ->]. done. }
      destruct (IH w1) as (w' & Hcopy & Hc & Hobj & Hthis).
      { intros k Hk. rewrite !Hsame by done. apply Hfree.
        by apply list_elem_of_further. }
      exists w'. split; [done|]. split; [by rewrite Hc|]. split.
      * intros obj Hne. rewrite Hobj by done. unfold w1.
        rewrite props_add_property. by rewrite decide_False.
      * rewrite Hthis. unfold w1 at 1. rewrite props_add_property.
        rewrite decide_True by done. rewrite <- app_assoc. simpl.
        do 2 f_equal. unfold forwards. f_equal.
        apply filter_ext_elem. intros k Hk. by rewrite Hsame.
    + rewrite decide_False by congruence.
      apply IH. intros k Hk. apply Hfree. by apply list_elem_of_further.
Qed.

(** ** Registration *)

Lemma inject_fresh w this dependency :
  has w this (getServiceName dependency) = false →
  inject w this dependency =
    (Returns this,
     add_property w this (getServiceName dependency) (GLazy None dependency this)).
Proof. intros H. unfold inject, defineProperty. by rewrite !H. Qed.

(** C2: when a name is already bound in a container, registering a service
    under that name throws "Duplicate service name: <name>" and leaves the
    world as it was: the slot bound first is still there, and reading it
    gives what it gave before. *)
Theorem inject_duplicate w this dependency g :
  own w this (getServiceName dependency) = Some g →
  ∃ w',
    inject w this dependency =
      (Throws (Error ("Duplicate service name: " +:+ getServiceName dependency)), w') ∧
    w' = w ∧
    own w' this (getServiceName dependency) = Some g ∧
    ∀ fuel, get fuel w' this (getServiceName dependency) =
            get fuel w this (getServiceName dependency).
Proof.
  intros Hown. exists w. unfold inject.
  assert (has w this (getServiceName dependency) = true) as ->
    by (apply has_true; by eexists).
  done.
Qed.

Lemma inject_duplicate_witness :
  own w_a 0 (getServiceName (Failing "a" "boom")) = Some (GLazy None (Plain "a") 0) ∧
  ∃ w',
    inject w_a 0 (Failing "a" "boom") = (Throws (Error "Duplicate service name: a"), w') ∧
    w' = w_a ∧
    own w' 0 "a" = Some (GLazy None (Plain "a") 0) ∧
    ∀ fuel, get fuel w' 0 "a" = get fuel w_a 0 "a".
Proof.
  split; [reflexivity|].
  apply (inject_duplicate w_a 0 (Failing "a" "boom")). reflexivity.
Defined.

(** C10: the duplicate check of [inject] looks at own properties only.  A
    service named "inject" or "injectContainer" is accepted by a container
    that has no own property of that name: before, the name read the
    inherited method; after, the key is bound to the service's lazy getter
    and every read that returns yields the service instance. *)
Theorem inject_reserved_name w this dependency :
  getServiceName dependency = "inject" ∨
  getServiceName dependency = "injectContainer" →
  has w this (getServiceName dependency) = false →
  (∀ fuel, get (S fuel) w this (getServiceName dependency) =
           (Returns (VInherited (getServiceName dependency)), w)) ∧
  ∃ w',
    inject w this dependency = (Returns this, w') ∧
    own w' this (getServiceName dependency) = Some (GLazy None dependency this) ∧
    has w' this (getServiceName dependency) = true ∧
    ∀ fuel v w'',
      get fuel w' this (getServiceName dependency) = (Returns v, w'') →
      v = VInstance (fresh_instance w').
Proof.
  intros Hname Hfree. split.
  - intros fuel. simpl. apply has_false in Hfree. rewrite Hfree.
    by destruct Hname as [-> | ->].
  - eexists. split; [by apply inject_fresh|].
    apply has_false in Hfree.
    pose proof (own_add_property_eq w this _ (GLazy None dependency this) Hfree) as Hown.
    split; [done|]. split; [apply has_true; by eexists|].
    intros [|fuel] v w''; simpl; [done|]. rewrite Hown.
    destruct (run _ _ _ _) as [[[]| |] ?]; intros [= <- <-]; done.
Qed.

Lemma inject_reserved_name_witness :
  has empty_world 0 "inject" = false ∧
  (∀ fuel, get (S fuel) empty_world 0 "inject" =
           (Returns (VInherited "inject"), empty_world)) ∧
  ∃ w',
    inject empty_world 0 (Plain "inject") = (Returns 0, w') ∧
    own w' 0 "inject" = Some (GLazy None (Plain "inject") 0) ∧
    has w' 0 "inject" = true ∧
    ∀ fuel v w'',
      get fuel w' 0 "inject" = (Returns v, w'') → v = VInstance (fresh_instance w').
Proof.
  split; [reflexivity|].
  apply (inject_reserved_name empty_world 0 (Plain "inject")); [by left|reflexivity].
Defined.

(** ** Reading a name that is not bound *)

(** C9, as the code has it: a read of a key that is not an own property
    never throws and leaves the world as it is; it yields [undefined]
    unless the key names a member inherited from the prototype chain, which
    is what the read yields then. *)
Theorem read_unbound w obj key fuel :
  own w obj key = None →
  get (S fuel) w obj key =
    (Returns (if inherited key then VInherited key else VUndefined), w).
Proof. intros H. simpl. by rewrite H. Qed.

Lemma read_unbound_witness :
  own w_a 0 "logger" = None ∧
  get 1 w_a 0 "logger" = (Returns VUndefined, w_a).
Proof.
  split; [reflexivity|]. apply (read_unbound w_a 0 "logger" 0). reflexivity.
Defined.

(** C9 fails for the container's own method names: "inject" was never
    bound in the fresh container 0, and reading it yields the inherited
    method, not [undefined]. *)
Lemma read_unbound_inherited :
  own empty_world 0 "inject" = None ∧
  get 1 empty_world 0 "inject" = (Returns (VInherited "inject"), empty_world) ∧
  VInherited "inject" ≠ VUndefined.
Proof. repeat split; done. Qed.

(** ** Merging: the failing case *)

Lemma injectContainer_throws w this other e w' :
  injectContainer w this other = (Throws e, w') →
  NoDup (own_keys w other) →
  check_keys w this other (for_in w other) = Throws e ∧ w' = w.
Proof.
  unfold injectContainer. intros H Hnd.
  destruct (check_keys w this other (for_in w other)) as [[]|e'|] eqn:Hcheck.
  - exfalso. destruct (copy_keys_returns this other (for_in w other) w)
      as (w1 & Hcopy & _).
    + by apply for_in_NoDup.
    + by apply check_keys_returns.
    + by rewrite Hcopy in H.
  - by injection H as -> ->.
  - done.
Qed.

(** C5: when the two containers share a bound name, [injectContainer]
    throws the duplicate-keys error for a name bound in both, and the world
    it leaves is the world it found: nothing was copied, and no binding of
    either container was added, removed or changed. *)
Theorem injectContainer_atomic w this other key :
  has w this key = true →
  has w other key = true →
  ∃ k w',
    injectContainer w this other = (Throws (duplicate_keys k), w') ∧
    w' = w ∧
    has w this k = true ∧ has w other k = true ∧
    props w' this = props w this ∧ props w' other = props w other.
Proof.
  intros Ht Ho. unfold injectContainer.
  destruct (check_keys w this other (for_in w other)) as [[]|e|] eqn:Hcheck.
  - exfalso. rewrite check_keys_returns in Hcheck.
    rewrite (Hcheck key) in Ht; [done| |done]. by apply for_in_has.
  - apply check_keys_throws in Hcheck
      as (pre & k & post & _ & -> & Hko & Hkt & _).
    by exists k, w.
  - by apply check_keys_not_diverging in Hcheck.
Qed.

Lemma injectContainer_atomic_witness :
  has w_both 0 "random" = true ∧ has w_both 1 "random" = true ∧
  ∃ k w',
    injectContainer w_both 0 1 = (Throws (duplicate_keys k), w') ∧
    w' = w_both ∧
    has w_both 0 k = true ∧ has w_both 1 k = true ∧
    props w' 0 = props w_both 0 ∧ props w' 1 = props w_both 1.
Proof.
  split; [reflexivity|]. split; [reflexivity|].
  apply (injectContainer_atomic w_both 0 1 "random"); reflexivity.
Defined.

(** C4, as the code has it: the error of a failed merge names one key, the
    first key in the enumeration of [other] that [this] binds as well. *)
Theorem injectContainer_error_first_duplicate w this other e w' :
  NoDup (own_keys w other) →
  injectContainer w this other = (Throws e, w') →
  ∃ pre key post,
    for_in w other = pre ++ key :: post ∧
    e = Error ("Containers have duplicated keys: " +:+ key) ∧
    has w this key = true ∧ has w other key = true ∧
    ∀ k, k ∈ pre → has w this k = false.
Proof.
  intros Hnd H. apply injectContainer_throws in H as [Hcheck _]; [|done].
  apply check_keys_throws in Hcheck
    as (pre & k & post & Hkeys & -> & Hko & Hkt & Hpre).
  exists pre, k, post. repeat split; try done.
  intros k' Hk'. apply Hpre; [done|].
  apply for_in_has. rewrite Hkeys. apply elem_of_app. by left.
Qed.

Lemma injectContainer_error_first_duplicate_witness :
  NoDup (own_keys w_both 1) ∧
  injectContainer w_both 0 1 = (Throws (duplicate_keys "logger"), w_both) ∧
  ∃ pre key post,
    for_in w_both 1 = pre ++ key :: post ∧
    duplicate_keys "logger" = Error ("Containers have duplicated keys: " +:+ key) ∧
    has w_both 0 key = true ∧ has w_both 1 key = true ∧
    ∀ k, k ∈ pre → has w_both 0 k = false.
Proof.
  assert (Hnd : NoDup (own_keys w_both 1)) by (apply (bool_decide_unpack _); by vm_compute).
  split; [exact Hnd|]. split; [reflexivity|].
  apply (injectContainer_error_first_duplicate w_both 0 1 _ w_both Hnd).
  reflexivity.
Defined.

(** C4 fails on the code: both containers bind "logger" and "random", and
    the error of the merge names "logger" alone. *)
Lemma injectContainer_error_omits_duplicate :
  has w_both 0 "logger" = true ∧ has w_both 1 "logger" = true ∧
  has w_both 0 "random" = true ∧ has w_both 1 "random" = true ∧
  injectContainer w_both 0 1 =
    (Throws (Error "Containers have duplicated keys: logger"), w_both) ∧
  mentions "random" (exn_message (duplicate_keys "logger")) = false.
Proof. repeat split; reflexivity. Qed.

(** ** What reads and registrations keep *)

#[local] Instance getter_grows_refl : Reflexive getter_grows.
Proof. intros [[i|] d t|o k]; simpl; done. Qed.

#[local] Instance getter_grows_trans : Transitive getter_grows.
Proof.
  intros [[i|] d t|o k] [[i'|] d' t'|o' k'] [[i''|] d'' t''|o'' k'']; simpl;
    intuition congruence.
Qed.

#[local] Instance extends_refl : Reflexive extends.
Proof. intros w obj key g H. by exists g. Qed.

#[local] Instance extends_trans : Transitive extends.
Proof.
  intros w1 w2 w3 H12 H23 obj key g H.
  destruct (H12 _ _ _ H) as (g2 & H2 & Hg2).
  destruct (H23 _ _ _ H2) as (g3 & H3 & Hg3).
  exists g3. split; [done|by etrans].
Qed.

#[local] Instance grows_refl : Reflexive grows.
Proof. intros w. split; [done|auto]. Qed.

#[local] Instance grows_trans : Transitive grows.
Proof.
  intros w1 w2 w3 [H12 N12] [H23 N23]. split; [by etrans|auto].
Qed.

#[local] Instance grows_store : StoreInvariant grows.
Proof. intros w var x. split; [intros obj key g H; by exists g|done]. Qed.

Lemma own_store w var x obj key : own (store w var x) obj key = own w obj key.
Proof. done. Qed.

Lemma run_preserves (R : relation world) `{!Reflexive R} `{!Transitive R}
    `{!StoreInvariant R} get' this b w r w' :
  (∀ w obj key r w', get' w obj key = (r, w') → R w w') →
  run get' this b w = (r, w') → R w w'.
Proof.
  intros Hget. revert w.
  induction b as [| |key k IH|key k IH handler IHh|var k IH|var x k IH];
    intros w; simpl.
  - by intros [= _ <-].
  - by intros [= _ <-].
  - destruct (get' w this key) as [[v|e|] w1] eqn:E; intros Hrun.
    + etrans; [by eapply Hget|by eapply IH].
    + injection Hrun as _ <-. by eapply Hget.
    + injection Hrun as _ <-. by eapply Hget.
  - destruct (get' w this key) as [[v|e|] w1] eqn:E; intros Hrun.
    + etrans; [by eapply Hget|by eapply IH].
    + etrans; [by eapply Hget|by eapply IHh].
    + injection Hrun as _ <-. by eapply Hget.
  - apply IH.
  - intros Hrun. etrans; [apply store_invariant|by eapply IH].
Qed.


Lemma props_insert h cs vs c l obj :
  props (World (<[c := l]> h) cs vs) obj =
  if decide (c = obj) then l else props (World h cs vs) obj.
Proof.
  unfold props. simpl. destruct (decide (c = obj)) as [<-|Hne].
  - by rewrite lookup_insert_eq.
  - by rewrite lookup_insert_ne.
Qed.

Lemma own_set_instance w s i obj key :
  own (set_instance w s i) obj key =
  match own w s.1 s.2 with
  | Some (GLazy _ d t) =>
      if decide (s = (obj, key)) then Some (GLazy (Some i) d t) else own w obj key
  | _ => own w obj key
  end.
Proof.
  destruct s as [c k]. unfold set_instance. simpl.
  destruct (own w c k) as [[o d t|o k']|] eqn:E; try done.
  unfold own at 1. rewrite props_insert.
  destruct (decide ((c, k) = (obj, key))) as [[= <- <-]|Hne].
  - rewrite !decide_True by done. rewrite assoc_set_eq.
    unfold own in E. by rewrite E.
  - rewrite (decide_False (P := (c, k) = (obj, key))) by done.
    destruct (decide (c = obj)) as [<-|Hc]; [|by destruct w].
    rewrite assoc_set_ne; [done|congruence].
Qed.

Lemma constructed_set_instance w s i :
  constructed (set_instance w s i) = constructed w.
Proof.
  unfold set_instance. by destruct (own w s.1 s.2) as [[? ? ?|? ?]|].
Qed.

Lemma get_grows fuel w obj key r w' :
  get fuel w obj key = (r, w') → grows w w'.
Proof.
  revert w obj key r w'. induction fuel as [|n IH]; intros w obj key r w'; simpl.
  - by intros [= _ <-].
  - destruct (own w obj key) as [[[i|] d t|o k]|] eqn:E.
    + by intros [= _ <-].
    + destruct (run (get n) t (ctor d) (record_new w (obj, key)))
        as [[[]|e|] w1] eqn:Hrun;
        apply (run_preserves grows) in Hrun; try (by intros [= _ <-]); try done.
      intros [= _ <-]. destruct Hrun as [Hext Hnone].
      destruct (Hext _ _ _ E) as (g' & Hg' & Hgrow).
      destruct g' as [o' d' t'|]; [|done]. destruct Hgrow as [<- <-].
      split.
      * intros obj' key' g Hg. rewrite own_set_instance. simpl. rewrite Hg'.
        case_decide as Heq.
        -- injection Heq as <- <-. eexists. split; [reflexivity|].
           rewrite E in Hg. injection Hg as <-. simpl. auto.
        -- by apply Hext.
      * intros obj' key' Hn. rewrite own_set_instance. simpl. rewrite Hg'.
        case_decide as Heq; [congruence|by apply Hnone].
    + apply IH.
    + by intros [= _ <-].
Qed.

Lemma run_grows n this b w r w' :
  run (get n) this b w = (r, w') → grows w w'.
Proof. apply (run_preserves grows). apply get_grows. Qed.

Lemma lazy_kept w w' obj key o d t :
  own w obj key = Some (GLazy o d t) → extends w w' →
  ∃ o', own w' obj key = Some (GLazy o' d t).
Proof.
  intros E Hext. destruct (Hext _ _ _ E) as ([o' d' t'|] & Hg' & Hg).
  - exists o'. destruct o as [i|]; simpl in Hg.
    + destruct o'; [|done]. destruct Hg as (_ & <- & <-). done.
    + destruct Hg as (<- & <-). done.
  - by destruct o.
Qed.

Lemma resolved_kept w w' obj key i d t :
  own w obj key = Some (GLazy (Some i) d t) → extends w w' →
  own w' obj key = Some (GLazy (Some i) d t).
Proof.
  intros E Hext. destruct (Hext _ _ _ E) as ([[i'|] d' t'|] & Hg' & Hg); try done.
  destruct Hg as (<- & <- & <-). done.
Qed.

Lemma forward_kept w w' obj key o k :
  own w obj key = Some (GForward o k) → extends w w' →
  own w' obj key = Some (GForward o k).
Proof.
  intros E Hext. destruct (Hext _ _ _ E) as ([|o' k'] & Hg' & Hg); try done.
  destruct Hg as (<- & <-). done.
Qed.

Lemma grows_extends w w' : grows w w' → extends w w'.
Proof. by intros [? _]. Qed.

Lemma extends_add_property w obj name g : extends w (add_property w obj name g).
Proof.
  intros obj' key g0 H. exists g0. split; [|done].
  unfold own. rewrite props_add_property.
  destruct (decide (obj = obj')) as [<-|]; [|done].
  rewrite assoc_app. unfold own in H. by rewrite H.
Qed.

Lemma inject_extends w this dependency r w' :
  inject w this dependency = (r, w') → extends w w'.
Proof.
  unfold inject, defineProperty.
  destruct (has w this (getServiceName dependency)); intros [= _ <-];
    [done|apply extends_add_property].
Qed.

Lemma copy_keys_extends this other keys w r w' :
  copy_keys this other keys w = (r, w') → extends w w'.
Proof.
  revert w. induction keys as [|key keys IH]; intros w; simpl.
  - by intros [= _ <-].
  - destruct (has w other key); [|apply IH].
    unfold defineProperty. destruct (has w this key).
    + by intros [= _ <-].
    + intros H. etrans; [apply extends_add_property|by eapply IH].
Qed.

Lemma injectContainer_extends w this other r w' :
  injectContainer w this other = (r, w') → extends w w'.
Proof.
  unfold injectContainer.
  destruct (check_keys w this other (for_in w other)) as [[]| |];
    try by intros [= _ <-].
  destruct (copy_keys this other (for_in w other) w) as [[[]| |] w1] eqn:E;
    intros [= _ <-]; by eapply copy_keys_extends.
Qed.

Lemma exec_extends w o : extends w (exec w o).
Proof.
  destruct o as [this d|this other|fuel obj key]; simpl.
  - eapply inject_extends, surjective_pairing.
  - eapply injectContainer_extends, surjective_pairing.
  - eapply grows_extends, get_grows, surjective_pairing.
Qed.

Lemma exec_all_extends w ops : extends w (exec_all w ops).
Proof.
  revert w. induction ops as [|o ops IH]; intros w; simpl; [done|].
  etrans; [apply exec_extends|apply IH].
Qed.

(** ** Keys are never bound twice

    The theorems about merging assume that the source container has no two
    properties under one key.  Every world the operations can make from the
    empty one is like that. *)

Lemma own_keys_add_property w obj name g obj' :
  own_keys (add_property w obj name g) obj' =
  if decide (obj = obj') then own_keys w obj ++ [name] else own_keys w obj'.
Proof.
  unfold own_keys. rewrite props_add_property.
  destruct (decide (obj = obj')); [|done]. by rewrite fmap_app.
Qed.

Lemma own_keys_set_instance w s i obj :
  own_keys (set_instance w s i) obj = own_keys w obj.
Proof.
  unfold set_instance.
  destruct (own w s.1 s.2) as [[o d t|o k]|]; try done.
  unfold own_keys. rewrite props_insert.
  destruct (decide (s.1 = obj)) as [<-|]; [|by destruct w].
  apply assoc_set_keys.
Qed.

#[local] Instance same_keys_refl : Reflexive same_keys.
Proof. by intros w obj. Qed.

#[local] Instance same_keys_trans : Transitive same_keys.
Proof. intros w1 w2 w3 H12 H23 obj. by rewrite H23. Qed.

#[local] Instance same_keys_store : StoreInvariant same_keys.
Proof. by intros w var x obj. Qed.

Lemma get_same_keys n w obj key r w' :
  get n w obj key = (r, w') → same_keys w w'.
Proof.
  revert w obj key r w'. induction n as [|n IH]; intros w obj key r w'; simpl.
  - by intros [= _ <-].
  - destruct (own w obj key) as [[[i|] d t|o k]|]; try by intros [= _ <-].
    + destruct (run (get n) t (ctor d) (record_new w (obj, key)))
        as [r1 w1] eqn:Hrun.
      apply (run_preserves same_keys) in Hrun; [|apply IH].
      destruct r1 as [[]|e|]; intros [= _ <-] o;
        rewrite ?own_keys_set_instance; apply Hrun.
    + apply IH.
Qed.

Lemma add_property_well_keyed w obj name g :
  has w obj name = false → well_keyed w → well_keyed (add_property w obj name g).
Proof.
  intros Hfree Hwk obj'. rewrite own_keys_add_property.
  destruct (decide (obj = obj')) as [<-|]; [|done].
  apply NoDup_app. split; [done|]. split; [|apply NoDup_singleton].
  intros k Hk ->%list_elem_of_singleton.
  apply has_own_keys in Hk. congruence.
Qed.

Lemma inject_well_keyed w this dependency r w' :
  inject w this dependency = (r, w') → well_keyed w → well_keyed w'.
Proof.
  unfold inject, defineProperty.
  destruct (has w this (getServiceName dependency)) eqn:E; intros [= _ <-];
    [done|by apply add_property_well_keyed].
Qed.

Lemma copy_keys_well_keyed this other keys w r w' :
  copy_keys this other keys w = (r, w') → well_keyed w → well_keyed w'.
Proof.
  revert w. induction keys as [|key keys IH]; intros w; simpl.
  - by intros [= _ <-].
  - destruct (has w other key); [|apply IH].
    unfold defineProperty. destruct (has w this key) eqn:E.
    + by intros [= _ <-].
    + intros H Hwk. eapply IH; [done|by apply add_property_well_keyed].
Qed.

Lemma injectContainer_well_keyed w this other r w' :
  injectContainer w this other = (r, w') → well_keyed w → well_keyed w'.
Proof.
  unfold injectContainer.
  destruct (check_keys w this other (for_in w other)) as [[]| |];
    try by intros [= _ <-].
  destruct (copy_keys this other (for_in w other) w) as [[[]| |] w1] eqn:E;
    intros [= _ <-]; by eapply copy_keys_well_keyed.
Qed.

Lemma exec_well_keyed w o : well_keyed w → well_keyed (exec w o).
Proof.
  destruct o as [this d|this other|fuel obj key]; simpl.
  - eapply inject_well_keyed, surjective_pairing.
  - eapply injectContainer_well_keyed, surjective_pairing.
  - intros Hwk o.
    by rewrite (get_same_keys fuel w obj key _ _ (surjective_pairing _) o).
Qed.

Lemma reachable_well_keyed ops : well_keyed (exec_all empty_world ops).
Proof.
  assert (H : ∀ w, well_keyed w → well_keyed (exec_all w ops)).
  { induction ops as [|o ops IH]; intros w Hwk; simpl; [done|].
    by apply IH, exec_well_keyed. }
  apply H. intros obj. apply NoDup_nil_2.
Qed.

(** ** Reads that find the value without constructing *)

Lemma peek_get n w obj key v :
  peek n w obj key = Some v → get n w obj key = (Returns v, w).
Proof.
  revert obj key. induction n as [|n IH]; intros obj key; simpl; [done|].
  destruct (own w obj key) as [[[i|] d t|o k]|]; try done.
  - by intros [= <-].
  - apply IH.
  - by intros [= <-].
Qed.

Lemma peek_mono n m w obj key v :
  peek n w obj key = Some v → (n ≤ m)%nat → peek m w obj key = Some v.
Proof.
  revert m obj key. induction n as [|n IH]; intros m obj key; simpl; [done|].
  intros H Hle. destruct m as [|m]; [lia|]. simpl.
  destruct (own w obj key) as [[[i|] d t|o k]|]; try done.
  apply IH; [done|lia].
Qed.

Lemma peek_extends n w w' obj key i :
  peek n w obj key = Some (VInstance i) → extends w w' →
  peek n w' obj key = Some (VInstance i).
Proof.
  intros H Hext. revert obj key H.
  induction n as [|n IH]; intros obj key; simpl; [done|].
  destruct (own w obj key) as [[[j|] d t|o k]|] eqn:E; try done.
  - by rewrite (resolved_kept _ _ _ _ _ _ _ E Hext).
  - rewrite (forward_kept _ _ _ _ _ _ E Hext). apply IH.
  - unfold proto_get. by destruct (inherited key).
Qed.

Lemma peek_grows n w w' obj key v :
  peek n w obj key = Some v → grows w w' → peek n w' obj key = Some v.
Proof.
  intros H [Hext Hnone]. revert obj key H.
  induction n as [|n IH]; intros obj key; simpl; [done|].
  destruct (own w obj key) as [[[j|] d t|o k]|] eqn:E; try done.
  - by rewrite (resolved_kept _ _ _ _ _ _ _ E Hext).
  - rewrite (forward_kept _ _ _ _ _ _ E Hext). apply IH.
  - by rewrite (Hnone _ _ E).
Qed.

Lemma get_peek n w obj key v w' :
  get n w obj key = (Returns v, w') → peek n w' obj key = Some v.
Proof.
  revert w obj key. induction n as [|n IH]; intros w obj key; [done|].
  intros H. pose proof (get_grows _ _ _ _ _ _ H) as [Hext Hnone].
  simpl in *. destruct (own w obj key) as [[[i|] d t|o k]|] eqn:E.
  - injection H as <- <-. by rewrite E.
  - destruct (run _ _ _ _) as [[[]| |] w1] eqn:Hrun; try done.
    injection H as <- <-. apply run_grows in Hrun as [Hext1 _].
    destruct (lazy_kept _ _ _ _ _ _ _ E Hext1) as [o' Ho'].
    rewrite own_set_instance. simpl. rewrite Ho'. by rewrite decide_True.
  - rewrite (forward_kept _ _ _ _ _ _ E Hext). by eapply IH.
  - injection H as <- <-. by rewrite E.
Qed.

Lemma peek_get_any n w obj key v m :
  peek n w obj key = Some v →
  get m w obj key = (OutOfFuel, w) ∨ get m w obj key = (Returns v, w).
Proof.
  revert n obj key. induction m as [|m IH]; intros n obj key; [by left|].
  destruct n as [|n]; [done|]. simpl.
  destruct (own w obj key) as [[[i|] d t|o k]|]; try done.
  - intros [= <-]. by right.
  - apply IH.
  - intros [= <-]. by right.
Qed.

(** Once a read has returned an instance, every later read with at least
    that fuel returns it again and changes nothing. *)
Lemma get_memo n w obj key i w1 w2 m :
  get n w obj key = (Returns (VInstance i), w1) →
  extends w1 w2 → (n ≤ m)%nat →
  get m w2 obj key = (Returns (VInstance i), w2).
Proof.
  intros H Hext Hle. apply peek_get, (peek_mono n); [|done].
  eapply peek_extends; [|done]. by eapply get_peek.
Qed.

(** ** Merging: the successful case *)

Lemma assoc_forwards other keys key :
  assoc key ((λ k, (k, GForward other k)) <$> keys) =
  if decide (key ∈ keys) then Some (GForward other key) else None.
Proof.
  induction keys as [|k keys IH]; csimpl; [done|].
  destruct (decide (k = key)) as [->|Hne].
  - rewrite decide_True; [done|apply list_elem_of_here].
  - rewrite IH. destruct (decide (key ∈ keys)) as [Hin|Hnotin].
    + rewrite decide_True; [done|by apply list_elem_of_further].
    + rewrite decide_False; [done|]. rewrite not_elem_of_cons. by split.
Qed.

Lemma filter_all (P : string → Prop) `{!∀ x, Decision (P x)} (l : list string) :
  (∀ x, x ∈ l → P x) → filter P l = l.
Proof.
  induction l as [|x l IH]; intros Hall; [done|].
  rewrite filter_cons, decide_True by apply Hall, list_elem_of_here.
  f_equal. apply IH. intros y Hy. by apply Hall, list_elem_of_further.
Qed.

Lemma forwards_for_in w other :
  forwards w other (for_in w other) =
  (λ key, (key, GForward other key)) <$> for_in w other.
Proof.
  unfold forwards. f_equal. apply filter_all.
  intros key Hkey. by apply for_in_has.
Qed.

Lemma injectContainer_returns w this other :
  NoDup (own_keys w other) →
  Forall (λ key, has w this key = false) (own_keys w other) →
  ∃ w',
    injectContainer w this other = (Returns this, w') ∧
    constructed w' = constructed w ∧
    (∀ obj, obj ≠ this → props w' obj = props w obj) ∧
    props w' this =
      props w this ++ ((λ key, (key, GForward other key)) <$> for_in w other).
Proof.
  intros Hnd Hfree. rewrite Forall_forall in Hfree.
  assert (Hfree' : ∀ k, k ∈ for_in w other → has w other k = true →
                        has w this k = false).
  { intros k Hk _. apply Hfree. by rewrite <- for_in_perm. }
  unfold injectContainer.
  rewrite (proj2 (check_keys_returns w this other (for_in w other)) Hfree').
  destruct (copy_keys_returns this other (for_in w other) w)
    as (w' & -> & Hc & Hobj & Hthis); [by apply for_in_NoDup|done|].
  exists w'. by rewrite <- forwards_for_in.
Qed.

(** C3: merging [other] into [this], when no key of [other] is bound in
    [this], returns [this] and evaluates no constructor; every other
    container keeps its properties as they were; [this] keeps its own and
    gains, for each key of [other], a getter that forwards to
    [other[key]].  From then on a read through [this] is the read through
    [other]: same outcome, same world after it.  The instance is kept by
    the slot of [other]: once a read of [other[key]] has returned it, both
    reads return that instance and change nothing. *)
Theorem injectContainer_delegates w this other :
  NoDup (own_keys w other) →
  Forall (λ key, has w this key = false) (own_keys w other) →
  ∃ w',
    injectContainer w this other = (Returns this, w') ∧
    constructed w' = constructed w ∧
    (∀ obj, obj ≠ this → props w' obj = props w obj) ∧
    (∀ key, has w' this key = has w this key || has w other key) ∧
    (∀ key, has w this key = true → own w' this key = own w this key) ∧
    ∀ key, has w other key = true →
      own w' this key = Some (GForward other key) ∧
      ∀ w2, extends w' w2 →
        (∀ fuel, get (S fuel) w2 this key = get fuel w2 other key) ∧
        ∀ fuel i w3 w4 m,
          get fuel w2 other key = (Returns (VInstance i), w3) →
          extends w3 w4 → (fuel ≤ m)%nat →
          get m w4 other key = (Returns (VInstance i), w4) ∧
          get (S m) w4 this key = (Returns (VInstance i), w4).
Proof.
  intros Hnd Hfree.
  destruct (injectContainer_returns w this other Hnd Hfree)
    as (w' & Hmerge & Hc & Hobj & Hthis).
  rewrite Forall_forall in Hfree.
  assert (Hown : ∀ key, own w' this key =
    match own w this key with
    | Some g => Some g
    | None => if decide (key ∈ for_in w other) then Some (GForward other key) else None
    end).
  { intros key. unfold own. by rewrite Hthis, assoc_app, assoc_forwards. }
  assert (Hfwd : ∀ key, has w other key = true →
                        own w' this key = Some (GForward other key)).
  { intros key Hkey. rewrite Hown.
    assert (has w this key = false) as ->%has_false
      by (apply Hfree; by apply has_own_keys).
    rewrite decide_True; [done|by apply for_in_has]. }
  exists w'. split; [done|]. split; [done|]. split; [done|].
  split; [|split].
  - intros key. unfold has at 1. rewrite Hown. unfold has at 1.
    destruct (own w this key); [done|]. simpl.
    destruct (decide (key ∈ for_in w other)) as [Hin|Hnotin].
    + apply for_in_has in Hin. by rewrite Hin.
    + rewrite for_in_has in Hnotin. by destruct (has w other key).
  - intros key Hkey. rewrite Hown. apply has_true in Hkey as [g Hg].
    by rewrite Hg.
  - intros key Hkey. split; [by apply Hfwd|]. intros w2 Hext2. split.
    + intros fuel. simpl.
      by rewrite (forward_kept _ _ _ _ _ _ (Hfwd key Hkey) Hext2).
    + intros fuel i w3 w4 m Hget Hext Hle.
      split; [by eapply get_memo|].
      simpl. erewrite forward_kept; [by eapply get_memo|by apply Hfwd|].
      etrans; [done|]. etrans; [|done].
      eapply grows_extends, get_grows, Hget.
Qed.

Lemma injectContainer_delegates_witness :
  NoDup (own_keys w_a_b 0) ∧
  Forall (λ key, has w_a_b 1 key = false) (own_keys w_a_b 0) ∧
  ∃ w',
    injectContainer w_a_b 1 0 = (Returns 1, w') ∧
    constructed w' = constructed w_a_b ∧
    (∀ obj, obj ≠ 1 → props w' obj = props w_a_b obj) ∧
    (∀ key, has w' 1 key = has w_a_b 1 key || has w_a_b 0 key) ∧
    (∀ key, has w_a_b 1 key = true → own w' 1 key = own w_a_b 1 key) ∧
    ∀ key, has w_a_b 0 key = true →
      own w' 1 key = Some (GForward 0 key) ∧
      ∀ w2, extends w' w2 →
        (∀ fuel, get (S fuel) w2 1 key = get fuel w2 0 key) ∧
        ∀ fuel i w3 w4 m,
          get fuel w2 0 key = (Returns (VInstance i), w3) →
          extends w3 w4 → (fuel ≤ m)%nat →
          get m w4 0 key = (Returns (VInstance i), w4) ∧
          get (S m) w4 1 key = (Returns (VInstance i), w4).
Proof.
  assert (Hnd : NoDup (own_keys w_a_b 0))
    by (apply (bool_decide_unpack _); by vm_compute).
  assert (Hfree : Forall (λ key, has w_a_b 1 key = false) (own_keys w_a_b 0))
    by (apply (bool_decide_unpack _); by vm_compute).
  split; [exact Hnd|]. split; [exact Hfree|].
  exact (injectContainer_delegates w_a_b 1 0 Hnd Hfree).
Defined.

(** ** What a constructor sees of the container *)

Lemma get_lazy_returns n w obj key d t v w' :
  own w obj key = Some (GLazy None d t) →
  get n w obj key = (Returns v, w') →
  v = VInstance (fresh_instance w) ∧
  own w' obj key = Some (GLazy (Some (fresh_instance w)) d t).
Proof.
  intros E. destruct n as [|n]; simpl; [done|]. rewrite E.
  destruct (run _ _ _ _) as [[[]| |] w1] eqn:Hrun; try done.
  intros [= <- <-]. split; [done|].
  apply run_grows in Hrun as [Hext _].
  destruct (lazy_kept _ _ _ _ _ _ _ E Hext) as [o' Ho'].
  rewrite own_set_instance. simpl. rewrite Ho'. by rewrite decide_True.
Qed.




(** ** The order of registration *)

Lemma own_add_property w obj name g obj' key :
  own (add_property w obj name g) obj' key =
  match own w obj' key with
  | Some g0 => Some g0
  | None => if decide ((obj, name) = (obj', key)) then Some g else None
  end.
Proof.
  case_decide as Heq.
  - injection Heq as <- <-. unfold own. rewrite props_add_property.
    rewrite decide_True, assoc_app by done.
    destruct (assoc name (props w obj)); [done|]. simpl. by rewrite decide_True.
  - rewrite own_add_property_ne by done. by destruct (own w obj' key).
Qed.

#[local] Instance same_lookups_equiv : Equivalence same_lookups.
Proof.
  split.
  - by intros w.
  - intros w1 w2 (Hc & Hv & Ho). split; [done|]. split; [done|].
    intros obj key. by rewrite Ho.
  - intros w1 w2 w3 (Hc & Hv & Ho) (Hc' & Hv' & Ho').
    split; [congruence|]. split; [congruence|].
    intros obj key. by rewrite Ho.
Qed.










(** ** A constructor that only reads is never entered twice by one read

    A read that leads back to a slot whose constructor is still running
    enters that constructor again.  When the constructors only read the
    container, it is entered in a world where it takes the same path to
    the same read: such a read does not return.  So a read that returns or
    throws has then entered the constructor of each slot at most once. *)

Lemma own_heap_eq w u obj key : heap u = heap w → own u obj key = own w obj key.
Proof. unfold own, props. by intros ->. Qed.

Lemma grows_heap_eq w u : heap u = heap w → grows w u.
Proof.
  intros H. split.
  - intros obj key g Hg. exists g. by rewrite (own_heap_eq w u).
  - intros obj key Hn. by rewrite (own_heap_eq w u).
Qed.

Lemma invocations_record_new w s' s :
  invocations (record_new w s') s =
  (invocations w s + if decide (s' = s) then 1 else 0)%nat.
Proof.
  unfold invocations, record_new. simpl.
  rewrite filter_app, length_app, filter_cons, filter_nil.
  by destruct (decide (s' = s)).
Qed.

Lemma invocations_set_instance w s' i s :
  invocations (set_instance w s' i) s = invocations w s.
Proof. unfold invocations. by rewrite constructed_set_instance. Qed.

Lemma route_snoc w obj key o k o' k' :
  route w obj key (o, k) → own w o k = Some (GForward o' k') →
  route w obj key (o', k').
Proof.
  intros Hr Hf. remember (o, k) as s eqn:Hs. revert Hs.
  induction Hr as [obj key|obj key other key' s Hown Hr IH]; intros Hs.
  - injection Hs as -> ->. eapply route_forward; [done|apply route_here].
  - eapply route_forward; [done|by apply IH].
Qed.

Lemma route_grows w u obj key s : route w obj key s → grows w u → route u obj key s.
Proof.
  intros Hr [Hext _].
  induction Hr as [obj key|obj key other key' s Hown Hr IH]; [apply route_here|].
  eapply route_forward; [by eapply forward_kept|done].
Qed.

Lemma route_diverges w u obj key s m :
  route w obj key s → heap u = heap w →
  (∀ m', (m' ≤ m)%nat → (get m' u s.1 s.2).1 = OutOfFuel) →
  (get m u obj key).1 = OutOfFuel.
Proof.
  intros Hr Hu. revert m.
  induction Hr as [obj key|obj key other key' s Hown Hr IH]; intros m Hs.
  - by apply Hs.
  - destruct m as [|m]; [done|]. simpl.
    rewrite (own_heap_eq w u) by done. rewrite Hown.
    apply IH. intros m' Hm'. apply Hs. lia.
Qed.

Lemma run_out_of_fuel get1 this key k u :
  (get1 u this key).1 = OutOfFuel → (run get1 this (Get key k) u).1 = OutOfFuel.
Proof. simpl. by destruct (get1 u this key) as [[v|e|] w']. Qed.

Lemma cycle_diverges (F : list pending) w :
  (∀ p, p ∈ F → pending_ok w p ∧
     ∃ p', p' ∈ F ∧ route w (p_this p) (p_key p) (p_slot p')) →
  ∀ m u p, heap u = heap w → p ∈ F →
    (get m u (p_slot p).1 (p_slot p).2).1 = OutOfFuel.
Proof.
  intros HF m. induction (lt_wf m) as [m _ IH]. intros u p Hu Hp.
  destruct m as [|m]; [done|]. simpl.
  destruct (HF p Hp) as [[Hown Hreplay] (p' & Hp' & Hroute)].
  rewrite (own_heap_eq w u) by done. rewrite Hown.
  set (u1 := record_new u _).
  assert (Hu1 : heap u1 = heap w) by done.
  assert (Hrun : (run (get m) (p_this p) (ctor (p_dep p)) u1).1 = OutOfFuel).
  { destruct (Hreplay u1 m (grows_heap_eq _ _ Hu1)) as [Hoof|Heq]; [done|].
    rewrite Heq. apply run_out_of_fuel. eapply route_diverges; [done|done|].
    intros m' Hm'. apply IH; [lia|done|done]. }
  destruct (run _ _ _ _) as [[[]|e|] w']; done.
Qed.

Lemma replays_grows w u dep this b :
  replays w dep this b → grows w u → replays u dep this b.
Proof. intros H Hg u' m Hu'. apply H. by etrans. Qed.

Lemma replays_next w t dep this key k n v :
  replays w dep this (Get key k) → grows w t →
  peek n t this key = Some v →
  replays t dep this (k v).
Proof.
  intros H Hg Hpeek u m Hu.
  destruct (H u m) as [Hoof|Heq]; [by etrans|by left|].
  rewrite Heq. simpl.
  destruct (peek_get_any n u this key v m) as [-> | ->];
    [by eapply peek_grows|by left|by right].
Qed.

Lemma chain_pending_ok w stack target p :
  chain w stack target → p ∈ stack → pending_ok w p.
Proof.
  revert target. induction stack as [|q stack IH]; intros target; simpl.
  - intros _ Hp. inversion Hp.
  - intros (Hq & _ & Hchain) [->|Hp]%elem_of_cons; [done|by eapply IH].
Qed.

Lemma chain_untouched w stack target :
  chain w stack target → untouched stack w w.
Proof.
  intros Hchain p Hp. split; [|done].
  by destruct (chain_pending_ok _ _ _ _ Hchain Hp).
Qed.

Lemma chain_grows w u stack target :
  chain w stack target → grows w u → untouched stack w u → chain u stack target.
Proof.
  intros Hchain Hg Hun. revert target Hchain.
  induction stack as [|q stack IH]; intros target; simpl; [done|].
  intros ([Hown Hrep] & Hroute & Hchain). split; [split|split].
  - apply Hun, list_elem_of_here.
  - by eapply replays_grows.
  - by eapply route_grows.
  - apply IH; [|done]. intros p Hp. by apply Hun, list_elem_of_further.
Qed.

Lemma chain_forward w stack obj key other key' :
  chain w stack (obj, key) → own w obj key = Some (GForward other key') →
  chain w stack (other, key').
Proof.
  destruct stack as [|q stack]; simpl; [done|].
  intros (Hq & Hroute & Hchain) Hf. split; [done|]. split; [|done].
  by eapply route_snoc.
Qed.

Lemma chain_closed w (F : list pending) stack target :
  chain w stack target →
  (∃ p0, p0 ∈ F ∧ p_slot p0 = target) →
  (∀ p, p ∈ stack → p ∈ F) →
  ∀ p, p ∈ stack → pending_ok w p ∧
    ∃ p', p' ∈ F ∧ route w (p_this p) (p_key p) (p_slot p').
Proof.
  revert target. induction stack as [|q stack IH]; intros target; simpl.
  - intros _ _ _ p Hp. inversion Hp.
  - intros (Hq & Hroute & Hchain) (p0 & Hp0 & <-) Hsub p [->|Hp]%elem_of_cons.
    + split; [done|]. by exists p0.
    + eapply (IH (p_slot q)); [done| |by intros; apply Hsub, list_elem_of_further|done].
      exists q. split; [apply Hsub, list_elem_of_here|done].
Qed.

Lemma untouched_trans stack s t u :
  untouched stack s t → untouched stack t u → untouched stack s u.
Proof.
  intros Hst Htu p Hp. destruct (Hst p Hp) as [_ Hi], (Htu p Hp) as [Ho Hi'].
  split; [done|congruence].
Qed.

(** Two services that need each other: the read goes round and round. *)
Example circular_read :
  (get 20 w_circular 0 "a").1 = OutOfFuel ∧
  invocations (get 20 w_circular 0 "a").2 (0, "a") = 10.
Proof. split; reflexivity. Qed.

Lemma scripted_grows w u : scripted w → grows w u → scripted u.
Proof.
  intros Hs [Hext Hnone] obj key o d t Hown.
  destruct (own w obj key) as [g|] eqn:E.
  - destruct g as [o0 d0 t0|o0 k0].
    + destruct (lazy_kept _ _ _ _ _ _ _ E Hext) as [o' Ho'].
      rewrite Hown in Ho'. injection Ho' as _ -> _.
      apply (Hs obj key o0 d0 t0 E).
    + rewrite (forward_kept _ _ _ _ _ _ E Hext) in Hown. done.
  - rewrite (Hnone _ _ E) in Hown. done.
Qed.

Section no_reentry.
Variable n : nat.
Hypothesis get_untouched :
  ∀ stack s obj key r t,
    scripted s →
    chain s stack (obj, key) → get n s obj key = (r, t) → r ≠ OutOfFuel →
    untouched stack s t.

Lemma run_untouched b stack s sl dep this r t :
  script b → scripted s →
  own s sl.1 sl.2 = Some (GLazy None dep this) →
  replays s dep this b →
  chain s stack sl →
  run (get n) this b s = (r, t) → r ≠ OutOfFuel →
  (own t sl.1 sl.2 = Some (GLazy None dep this) ∧
   invocations t sl = invocations s sl) ∧
  untouched stack s t.
Proof.
  revert s.
  induction b as [| |key k IH|key k IH handler IHh|var k IH|var x k IH];
    intros s Hb Hs Hown Hrep Hchain; simpl; try done.
  - intros [= <- <-] _. split; [done|by eapply chain_untouched].
  - intros [= <- <-] _. split; [done|by eapply chain_untouched].
  - destruct (get n s this key) as [r1 t1] eqn:Hget. intros Hrun Hr.
    assert (Hr1 : r1 ≠ OutOfFuel).
    { intros ->. by injection Hrun as <- _. }
    set (p := Pending sl dep this key k).
    assert (Hun : untouched (p :: stack) s t1).
    { eapply get_untouched; [done| |done|done]. simpl. repeat split; try done.
      apply route_here. }
    pose proof (Hun p (list_elem_of_here _ _)) as [Hown1 Hinv1]. simpl in *.
    assert (Hun1 : untouched stack s t1).
    { intros q Hq. by apply Hun, list_elem_of_further. }
    destruct r1 as [v|e|]; [|by injection Hrun as <- <-|done].
    pose proof (get_grows _ _ _ _ _ _ Hget) as Hg.
    destruct (IH v t1) as [[Hown2 Hinv2] Hun2]; try done.
    + by eapply scripted_grows.
    + eapply replays_next; [done|done|by eapply get_peek].
    + by eapply chain_grows.
    + split; [split; [done|congruence]|by eapply untouched_trans].
Qed.
End no_reentry.

Lemma get_untouched n stack s obj key r t :
  scripted s →
  chain s stack (obj, key) → get n s obj key = (r, t) → r ≠ OutOfFuel →
  untouched stack s t.
Proof.
  revert stack s obj key r t. induction n as [|n IH];
    intros stack s obj key r t Hs Hchain; simpl.
  - by intros [= <- _].
  - destruct (own s obj key) as [[[i|] d th|o k]|] eqn:E.
    + intros [= _ <-] _. by eapply chain_untouched.
    + destruct (decide ((obj, key) ∈ p_slot <$> stack)) as [Hin|Hfresh].
      * apply list_elem_of_fmap in Hin as (p0 & Hslot & Hp0). symmetry in Hslot.
        intros Hget Hr. exfalso.
        pose proof (cycle_diverges stack s
          (chain_closed s stack stack (obj, key) Hchain
             (ex_intro _ p0 (conj Hp0 Hslot)) (λ _ H, H))
          (S n) s p0 eq_refl Hp0) as Hdiv.
        rewrite Hslot in Hdiv. simpl in Hdiv. rewrite E in Hdiv.
        destruct (run _ _ _ _) as [[[]|e|] w']; simpl in *; simplify_eq.
      * destruct (run (get n) th (ctor d) (record_new s (obj, key)))
          as [r1 t1] eqn:Hrun. intros Hget Hr.
        assert (Hr1 : r1 ≠ OutOfFuel).
        { intros ->. by injection Hget as <- _. }
        assert (Hun0 : untouched stack s (record_new s (obj, key))).
        { intros p Hp. split.
          - by destruct (chain_pending_ok _ _ _ _ Hchain Hp).
          - rewrite invocations_record_new, decide_False; [lia|].
            intros Heq. apply Hfresh. rewrite Heq. by apply list_elem_of_fmap_2. }
        destruct (run_untouched n IH (ctor d) stack (record_new s (obj, key))
                    (obj, key) d th r1 t1) as [_ Hun]; try done.
        { by eapply Hs. }
        { intros u m _. by right. }
        { eapply chain_grows; [done|by apply grows_heap_eq|done]. }
        assert (Hun' : untouched stack s t1) by (by eapply untouched_trans).
        destruct r1 as [[]|e|]; [|by injection Hget as _ <-|done].
        injection Hget as _ <-. intros p Hp.
        destruct (Hun' p Hp) as [Ho Hi].
        rewrite invocations_set_instance. split; [|done].
        rewrite own_set_instance.
        destruct (own t1 (obj, key).1 (obj, key).2) as [[? ? ?|? ?]|]; try done.
        rewrite decide_False; [done|].
        intros Heq. apply Hfresh. rewrite Heq.
        replace ((p_slot p).1, (p_slot p).2) with (p_slot p)
          by (by destruct (p_slot p)).
        by apply list_elem_of_fmap_2.
    + intros Hget Hr. eapply IH; [done| |done|done]. by eapply chain_forward.
    + intros [= _ <-] _. by eapply chain_untouched.
Qed.

(** ** The first read of a slot *)

Lemma first_read n w obj key d th r w1 :
  scripted w →
  own w obj key = Some (GLazy None d th) →
  get n w obj key = (r, w1) → r ≠ OutOfFuel →
  invocations w1 (obj, key) = S (invocations w (obj, key)) ∧
  ∃ n' w', n = S n' ∧
    run (get n') th (ctor d) (record_new w (obj, key)) = (forget r, w') ∧
    own w' obj key = Some (GLazy None d th) ∧
    match r with
    | Returns v =>
        v = VInstance (fresh_instance w) ∧
        w1 = set_instance w' (obj, key) (fresh_instance w) ∧
        own w1 obj key = Some (GLazy (Some (fresh_instance w)) d th)
    | _ => w1 = w'
    end.
Proof.
  intros Hs E. destruct n as [|n]; simpl; [by intros [= <- _]|]. rewrite E.
  destruct (run (get n) th (ctor d) (record_new w (obj, key))) as [r1 t1] eqn:Hrun.
  intros Hget Hr.
  assert (Hr1 : r1 ≠ OutOfFuel).
  { intros ->. by injection Hget as <- _. }
  destruct (run_untouched n (get_untouched n) (ctor d) [] (record_new w (obj, key))
              (obj, key) d th r1 t1) as [[Hown Hinv] _]; try done.
  { by eapply Hs. }
  { intros u m _. by right. }
  rewrite invocations_record_new, decide_True in Hinv by done.
  destruct r1 as [[]|e|]; [| |done]; injection Hget as <- <-.
  - rewrite invocations_set_instance. split; [lia|].
    exists n, t1. repeat split; try done.
    rewrite own_set_instance. simpl in *. rewrite Hown. by rewrite decide_True.
  - split; [lia|]. by exists n, t1.
Qed.

(** While a constructor runs, a slot changes only if its own constructor
    is entered. *)
#[local] Instance idle_refl s : Reflexive (idle s).
Proof. intros w. split; [lia|done]. Qed.

#[local] Instance idle_trans s : Transitive (idle s).
Proof.
  intros w1 w2 w3 [Hle12 Ho12] [Hle23 Ho23]. split; [lia|].
  intros Heq. rewrite Ho23 by lia. apply Ho12. lia.
Qed.

#[local] Instance idle_store s : StoreInvariant (idle s).
Proof. intros w var x. split; [done|done]. Qed.

Lemma get_idle s n w obj key r w' : get n w obj key = (r, w') → idle s w w'.
Proof.
  revert w obj key r w'. induction n as [|n IH]; intros w obj key r w'; simpl.
  - by intros [= _ <-].
  - destruct (own w obj key) as [[[i|] d t|o k]|] eqn:E.
    + by intros [= _ <-].
    + destruct (run (get n) t (ctor d) (record_new w (obj, key)))
        as [r1 w1] eqn:Hrun.
      apply (run_preserves (idle s)) in Hrun as [Hle Ho]; [|apply IH].
      rewrite invocations_record_new in Hle, Ho.
      intros Hget.
      assert (Hw' : invocations w' s = invocations w1 s ∧
                    ((obj, key) ≠ s → own w' s.1 s.2 = own w1 s.1 s.2)).
      { destruct r1 as [[]|e|]; injection Hget as _ <-; try done.
        split; [apply invocations_set_instance|]. intros Hne.
        rewrite own_set_instance.
        destruct (own w1 (obj, key).1 (obj, key).2) as [[? ? ?|? ?]|]; try done.
        rewrite decide_False; [done|]. by destruct s. }
      destruct Hw' as [Hinv Hown]. split; [lia|].
      intros Heq. case_decide as Hs; [lia|].
      rewrite Hown by done. rewrite Ho by lia. done.
    + apply IH.
    + by intros [= _ <-].
Qed.

Lemma run_idle s n this b w r w' : run (get n) this b w = (r, w') → idle s w w'.
Proof. apply (run_preserves (idle s)). apply get_idle. Qed.

(** ** A resolved slot stays as it is *)

#[local] Instance keeps_refl s : Reflexive (keeps s).
Proof. intros w. split; [done|auto]. Qed.

#[local] Instance keeps_trans s : Transitive (keeps s).
Proof.
  intros w1 w2 w3 [Hg12 Hi12] [Hg23 Hi23]. split; [by etrans|].
  intros i d t Hown. rewrite <- (Hi12 i d t Hown).
  apply (Hi23 i d t). eapply resolved_kept; [done|by apply grows_extends].
Qed.

#[local] Instance keeps_store s : StoreInvariant (keeps s).
Proof. intros w var x. split; [apply store_invariant|done]. Qed.

Lemma get_keeps s n w obj key r w' : get n w obj key = (r, w') → keeps s w w'.
Proof.
  revert w obj key r w'. induction n as [|n IH]; intros w obj key r w' Hget.
  { injection Hget as _ <-. done. }
  split; [by eapply get_grows|]. intros i d t Hs. simpl in Hget.
  destruct (own w obj key) as [[[j|] d' t'|o k]|] eqn:E.
  - by injection Hget as _ <-.
  - assert (Hne : (obj, key) ≠ s).
    { intros <-. simpl in Hs. congruence. }
    destruct (run (get n) t' (ctor d') (record_new w (obj, key)))
      as [r1 w1] eqn:Hrun.
    apply (run_preserves (keeps s)) in Hrun as [_ Hinv]; [|apply IH].
    specialize (Hinv i d t Hs).
    rewrite invocations_record_new, decide_False in Hinv by done.
    destruct r1 as [[]|e|]; injection Hget as _ <-;
      rewrite ?invocations_set_instance; lia.
  - destruct (IH _ _ _ _ _ Hget) as [_ Hinv]. by eapply Hinv.
  - by injection Hget as _ <-.
Qed.

Lemma inject_constructed w this dependency r w' :
  inject w this dependency = (r, w') → constructed w' = constructed w.
Proof.
  unfold inject, defineProperty.
  by destruct (has w this (getServiceName dependency)); intros [= _ <-].
Qed.

Lemma copy_keys_constructed this other keys w r w' :
  copy_keys this other keys w = (r, w') → constructed w' = constructed w.
Proof.
  revert w. induction keys as [|key keys IH]; intros w; simpl.
  - by intros [= _ <-].
  - destruct (has w other key); [|apply IH].
    unfold defineProperty. destruct (has w this key).
    + by intros [= _ <-].
    + intros H. by rewrite (IH _ H).
Qed.

Lemma injectContainer_constructed w this other r w' :
  injectContainer w this other = (r, w') → constructed w' = constructed w.
Proof.
  unfold injectContainer.
  destruct (check_keys w this other (for_in w other)) as [[]| |];
    try by intros [= _ <-].
  destruct (copy_keys this other (for_in w other) w) as [[[]| |] w1] eqn:E;
    intros [= _ <-]; by eapply copy_keys_constructed.
Qed.

Lemma exec_resolved w o obj key i d t :
  own w obj key = Some (GLazy (Some i) d t) →
  own (exec w o) obj key = Some (GLazy (Some i) d t) ∧
  invocations (exec w o) (obj, key) = invocations w (obj, key).
Proof.
  intros Hown. split; [by eapply resolved_kept, exec_extends|].
  destruct o as [this dep|this other|fuel obj' key']; simpl.
  - unfold invocations. by erewrite inject_constructed by apply surjective_pairing.
  - unfold invocations.
    by erewrite injectContainer_constructed by apply surjective_pairing.
  - destruct (get_keeps (obj, key) fuel w obj' key' _ _ (surjective_pairing _))
      as [_ Hinv]. by eapply Hinv.
Qed.

Lemma exec_all_resolved ops w obj key i d t :
  own w obj key = Some (GLazy (Some i) d t) →
  own (exec_all w ops) obj key = Some (GLazy (Some i) d t) ∧
  invocations (exec_all w ops) (obj, key) = invocations w (obj, key).
Proof.
  revert w. induction ops as [|o ops IH]; intros w Hown; simpl; [done|].
  destruct (exec_resolved w o _ _ _ _ _ Hown) as [Hown' Hinv].
  destruct (IH _ Hown') as [Hown'' Hinv']. split; [done|congruence].
Qed.

Lemma scripted_empty : scripted empty_world.
Proof. intros obj key o d t H. done. Qed.

Lemma scripted_inject w this dependency :
  script (ctor dependency) → scripted w →
  scripted (inject w this dependency).2.
Proof.
  intros Hd Hs. unfold inject, defineProperty.
  destruct (has w this (getServiceName dependency)); simpl; [done|].
  intros obj key o d t. rewrite own_add_property.
  destruct (own w obj key) as [g|] eqn:E.
  - intros [= ->]. by eapply Hs.
  - case_decide; [|done]. by intros [= _ <- _].
Qed.

(** C1, as the code has it: the slot made by [inject] is memoized.  When
    the constructor entered by the first read of a registered, not yet
    read name returns, the read returns the instance of that evaluation
    of [new dependency(this)], and the slot holds it; the read changes
    nothing else.  From then on,
    whatever is done with the containers (registrations, merges, reads, of
    this name or of others, returning or not), every read of the name
    returns that same instance, changes nothing, and enters the
    constructor no more.  The first read has entered the constructor once
    itself; it has entered it exactly once unless the constructor was
    entered again while it ran, which does not happen when the
    constructors of the world only read the container. *)
Theorem slot_memoized w obj key d th n w' :
  own w obj key = Some (GLazy None d th) →
  run (get n) th (ctor d) (record_new w (obj, key)) = (Returns (), w') →
  ∃ w1,
    w1 = set_instance w' (obj, key) (fresh_instance w) ∧
    get (S n) w obj key = (Returns (VInstance (fresh_instance w)), w1) ∧
    own w1 obj key = Some (GLazy (Some (fresh_instance w)) d th) ∧
    (invocations w (obj, key) < invocations w1 (obj, key))%nat ∧
    (invocations w' (obj, key) = invocations (record_new w (obj, key)) (obj, key) →
     invocations w1 (obj, key) = S (invocations w (obj, key))) ∧
    (scripted w → invocations w1 (obj, key) = S (invocations w (obj, key))) ∧
    ∀ ops m,
      get (S m) (exec_all w1 ops) obj key =
        (Returns (VInstance (fresh_instance w)), exec_all w1 ops) ∧
      invocations (exec_all w1 ops) (obj, key) = invocations w1 (obj, key).
Proof.
  intros Hown Hrun.
  assert (Hget : get (S n) w obj key =
    (Returns (VInstance (fresh_instance w)),
     set_instance w' (obj, key) (fresh_instance w))).
  { simpl. by rewrite Hown, Hrun. }
  destruct (get_lazy_returns _ _ _ _ _ _ _ _ Hown Hget) as [_ Hres].
  eexists. split; [done|]. split; [done|]. split; [done|]. split; [|split; [|split]].
  - rewrite invocations_set_instance.
    destruct (run_idle (obj, key) _ _ _ _ _ _ Hrun) as [Hle _].
    rewrite invocations_record_new, decide_True in Hle by done. lia.
  - rewrite invocations_set_instance, invocations_record_new, decide_True by done.
    lia.
  - intros Hs. by destruct (first_read _ _ _ _ _ _ _ _ Hs Hown Hget).
  - intros ops m.
    destruct (exec_all_resolved ops _ _ _ _ _ _ Hres) as [Hres' Hinv].
    split; [|done]. simpl. by rewrite Hres'.
Qed.

Lemma slot_memoized_witness :
  own w_ab 0 "a" = Some (GLazy None (Plain "a") 0) ∧
  run (get 0) 0 (ctor (Plain "a")) (record_new w_ab (0, "a")) =
    (Returns (), record_new w_ab (0, "a")) ∧
  scripted w_ab ∧
  ∃ w1,
    w1 = set_instance (record_new w_ab (0, "a")) (0, "a") 0 ∧
    get 1 w_ab 0 "a" = (Returns (VInstance 0), w1) ∧
    own w1 0 "a" = Some (GLazy (Some 0) (Plain "a") 0) ∧
    (invocations w_ab (0, "a") < invocations w1 (0, "a"))%nat ∧
    invocations w1 (0, "a") = 1 ∧
    ∀ ops m,
      get (S m) (exec_all w1 ops) 0 "a" = (Returns (VInstance 0), exec_all w1 ops) ∧
      invocations (exec_all w1 ops) (0, "a") = invocations w1 (0, "a").
Proof.
  assert (Hs : scripted w_ab).
  { apply scripted_inject; [done|]. apply scripted_inject; [done|].
    apply scripted_empty. }
  split; [reflexivity|]. split; [reflexivity|]. split; [exact Hs|].
  destruct (slot_memoized w_ab 0 "a" (Plain "a") 0 0 (record_new w_ab (0, "a"))
              eq_refl eq_refl) as (w1 & Hw1 & Hget & Hown & Hlt & _ & Hone & Hlater).
  exists w1. split; [exact Hw1|]. split; [exact Hget|]. split; [exact Hown|]. split; [exact Hlt|].
  split; [exact (Hone Hs)|exact Hlater].
Defined.

(** A counting constructor, read three times: it has run once. *)
Example counting_factory :
  let w := world_of (inject empty_world 0 (Counting "a")) in
  read_all w [(1, 0, "a"); (1, 0, "a"); (1, 0, "a")] =
    [Returns (VInstance 0); Returns (VInstance 0); Returns (VInstance 0)] ∧
  load (exec_all w [Read 1 0 "a"; Read 1 0 "a"; Read 1 0 "a"]) "count" = 1.
Proof. split; reflexivity. Qed.

(** C1 fails on the code for a constructor that reads its own name: the
    service of container 0 does so the first time it is entered.  The
    first read of "a" returns, and it has entered the constructor twice;
    the slot keeps the instance of the first entry. *)
Lemma first_read_enters_twice :
  own w_reentrant 0 "a" = Some (GLazy None (Reentrant "a") 0) ∧
  invocations w_reentrant (0, "a") = 0 ∧
  (get 2 w_reentrant 0 "a").1 = Returns (VInstance 0) ∧
  invocations (get 2 w_reentrant 0 "a").2 (0, "a") = 2 ∧
  constructed (get 2 w_reentrant 0 "a").2 = [(0, "a"); (0, "a")] ∧
  own (get 2 w_reentrant 0 "a").2 0 "a" = Some (GLazy (Some 0) (Reentrant "a") 0).
Proof. repeat split; reflexivity. Qed.

(** ** A constructor that throws *)

(** C6, as the code has it: when the constructor entered by the first read
    of a registered, not yet read name throws, the read throws the same
    exception and the getter stores nothing: the world is as the
    constructor left it.  If the constructor of the slot was not entered
    again meanwhile, as is the case when the constructors of the world
    only read the container, the slot holds no instance, and a later read
    evaluates [new dependency(this)] again: if it returns or throws, the
    constructor has been entered once more at least. *)
Theorem failed_construction_not_cached w obj key d th n e w1 :
  own w obj key = Some (GLazy None d th) →
  run (get n) th (ctor d) (record_new w (obj, key)) = (Throws e, w1) →
  get (S n) w obj key = (Throws e, w1) ∧
  (scripted w → invocations w1 (obj, key) = S (invocations w (obj, key))) ∧
  (invocations w1 (obj, key) = S (invocations w (obj, key)) →
   own w1 obj key = Some (GLazy None d th) ∧
   (∀ m, get (S m) w1 obj key =
         match run (get m) th (ctor d) (record_new w1 (obj, key)) with
         | (Returns _, w') =>
             (Returns (VInstance (fresh_instance w1)),
              set_instance w' (obj, key) (fresh_instance w1))
         | (Throws e', w') => (Throws e', w')
         | (OutOfFuel, w') => (OutOfFuel, w')
         end) ∧
   ∀ m r w2,
     get m w1 obj key = (r, w2) → r ≠ OutOfFuel →
     (invocations w1 (obj, key) < invocations w2 (obj, key))%nat).
Proof.
  intros Hown Hrun.
  assert (Hget : get (S n) w obj key = (Throws e, w1)).
  { simpl. by rewrite Hown, Hrun. }
  split; [done|]. split.
  { intros Hs. by destruct (first_read _ _ _ _ _ _ _ _ Hs Hown Hget). }
  intros Hinv.
  assert (Hown1 : own w1 obj key = Some (GLazy None d th)).
  { destruct (run_idle (obj, key) _ _ _ _ _ _ Hrun) as [_ Ho].
    rewrite invocations_record_new, decide_True in Ho by done.
    simpl in Ho. rewrite Ho by lia. done. }
  split; [done|]. split.
  - intros m. simpl. by rewrite Hown1.
  - intros [|m] r w2; simpl; [by intros [= <- _]|]. rewrite Hown1.
    destruct (run (get m) th (ctor d) (record_new w1 (obj, key)))
      as [r1 t1] eqn:Hrun1.
    destruct (run_idle (obj, key) _ _ _ _ _ _ Hrun1) as [Hle _].
    rewrite invocations_record_new, decide_True in Hle by done.
    destruct r1 as [[]|e1|]; intros [= <- <-] _;
      rewrite ?invocations_set_instance; lia.
Qed.

Lemma failed_construction_not_cached_witness :
  own w_failing 0 "a" = Some (GLazy None (Failing "a" "boom") 0) ∧
  run (get 0) 0 (ctor (Failing "a" "boom")) (record_new w_failing (0, "a")) =
    (Throws (Error "boom"), record_new w_failing (0, "a")) ∧
  scripted w_failing ∧
  get 1 w_failing 0 "a" = (Throws (Error "boom"), record_new w_failing (0, "a")) ∧
  invocations (record_new w_failing (0, "a")) (0, "a") =
    S (invocations w_failing (0, "a")) ∧
  own (record_new w_failing (0, "a")) 0 "a" =
    Some (GLazy None (Failing "a" "boom") 0) ∧
  (∀ m, get (S m) (record_new w_failing (0, "a")) 0 "a" =
        match run (get m) 0 (ctor (Failing "a" "boom"))
                (record_new (record_new w_failing (0, "a")) (0, "a")) with
        | (Returns _, w') =>
            (Returns (VInstance (fresh_instance (record_new w_failing (0, "a")))),
             set_instance w' (0, "a") (fresh_instance (record_new w_failing (0, "a"))))
        | (Throws e', w') => (Throws e', w')
        | (OutOfFuel, w') => (OutOfFuel, w')
        end) ∧
  ∀ m r w2,
    get m (record_new w_failing (0, "a")) 0 "a" = (r, w2) → r ≠ OutOfFuel →
    (invocations (record_new w_failing (0, "a")) (0, "a") < invocations w2 (0, "a"))%nat.
Proof.
  assert (Hs : scripted w_failing).
  { apply scripted_inject; [done|]. apply scripted_empty. }
  split; [reflexivity|]. split; [reflexivity|]. split; [exact Hs|].
  destruct (failed_construction_not_cached w_failing 0 "a" (Failing "a" "boom") 0 0
              (Error "boom") (record_new w_failing (0, "a")) eq_refl eq_refl)
    as (Hget & Hone & Hrest).
  split; [exact Hget|]. split; [exact (Hone Hs)|]. exact (Hrest (Hone Hs)).
Defined.

(** A constructor that catches the exception of its dependency is built;
    the dependency stays as it was, and throws again when read. *)
Example caught_failure :
  let w := world_of (inject w_failing 0 (Tolerant "b" "a")) in
  (get 2 w 0 "b").1 = Returns (VInstance 0) ∧
  own (get 2 w 0 "b").2 0 "a" = Some (GLazy None (Failing "a" "boom") 0) ∧
  (get 1 (get 2 w 0 "b").2 0 "a").1 = Throws (Error "boom").
Proof. repeat split; reflexivity. Qed.

(** C6 fails on the code for a constructor that reads its own name before
    it throws: the service of container 0 does so the first time it is
    entered.  The first read of "a" throws, yet the slot then holds the
    instance of the nested entry, and the next read returns it without
    entering the constructor. *)
Lemma failed_construction_cached :
  own w_reentrant_failing 0 "a" =
    Some (GLazy None (ReentrantFailing "a" "boom") 0) ∧
  (get 2 w_reentrant_failing 0 "a").1 = Throws (Error "boom") ∧
  own (get 2 w_reentrant_failing 0 "a").2 0 "a" =
    Some (GLazy (Some 1) (ReentrantFailing "a" "boom") 0) ∧
  get 1 (get 2 w_reentrant_failing 0 "a").2 0 "a" =
    (Returns (VInstance 1), (get 2 w_reentrant_failing 0 "a").2) ∧
  invocations (get 2 w_reentrant_failing 0 "a").2 (0, "a") = 2.
Proof. repeat split; reflexivity. Qed.

(** * Further properties of the container *)

(** ** Registration never constructs and never rebinds *)

#[local] Instance kept_refl : Reflexive kept.
Proof. by intros w obj key g. Qed.

#[local] Instance kept_trans : Transitive kept.
Proof. intros w1 w2 w3 H12 H23 obj key g H. by apply H23, H12. Qed.

Lemma add_property_kept w obj name g : kept w (add_property w obj name g).
Proof. intros obj' key g0 H. by rewrite own_add_property, H. Qed.

Lemma inject_kept w this dependency r w' :
  inject w this dependency = (r, w') → kept w w'.
Proof.
  unfold inject, defineProperty.
  destruct (has w this (getServiceName dependency)); intros [= _ <-];
    [done|apply add_property_kept].
Qed.

Lemma copy_keys_kept this other keys w r w' :
  copy_keys this other keys w = (r, w') → kept w w'.
Proof.
  revert w. induction keys as [|key keys IH]; intros w; simpl.
  - by intros [= _ <-].
  - destruct (has w other key); [|apply IH].
    unfold defineProperty. destruct (has w this key).
    + by intros [= _ <-].
    + intros H. etrans; [apply add_property_kept|by eapply IH].
Qed.

Lemma injectContainer_kept w this other r w' :
  injectContainer w this other = (r, w') → kept w w'.
Proof.
  unfold injectContainer.
  destruct (check_keys w this other (for_in w other)) as [[]| |];
    try by intros [= _ <-].
  destruct (copy_keys this other (for_in w other) w) as [[[]| |] w1] eqn:E;
    intros [= _ <-]; by eapply copy_keys_kept.
Qed.

(** X1: registration is lazy and never rebinds.  Whatever sequence of
    [inject] and [injectContainer] calls is made, on whatever containers,
    succeeding or throwing, no constructor is evaluated, and every property
    there was is still bound to the very getter it had, with the instance it
    held or none. *)
Theorem registrations_construct_nothing w ops :
  Forall (λ o, is_registration o = true) ops →
  constructed (exec_all w ops) = constructed w ∧ kept w (exec_all w ops).
Proof.
  intros Hops. revert w. induction Hops as [|o ops Ho _ IH]; intros w; simpl.
  - done.
  - destruct (IH (exec w o)) as [Hc Hk].
    destruct o as [this d|this other|fuel obj key]; simpl in *; [| |done].
    + split.
      * rewrite Hc. eapply inject_constructed, surjective_pairing.
      * etrans; [|exact Hk]. eapply inject_kept, surjective_pairing.
    + split.
      * rewrite Hc. eapply injectContainer_constructed, surjective_pairing.
      * etrans; [|exact Hk]. eapply injectContainer_kept, surjective_pairing.
Qed.

Lemma registrations_construct_nothing_witness :
  Forall (λ o, is_registration o = true)
    [Inject 0 (Plain "b"); InjectContainer 1 0; Inject 0 (Failing "a" "boom")] ∧
  constructed (exec_all w_a [Inject 0 (Plain "b"); InjectContainer 1 0;
                             Inject 0 (Failing "a" "boom")]) = constructed w_a ∧
  kept w_a (exec_all w_a [Inject 0 (Plain "b"); InjectContainer 1 0;
                          Inject 0 (Failing "a" "boom")]).
Proof.
  assert (Hops : Forall (λ o, is_registration o = true)
            [Inject 0 (Plain "b"); InjectContainer 1 0; Inject 0 (Failing "a" "boom")])
    by (repeat constructor).
  split; [exact Hops|].
  exact (registrations_construct_nothing w_a _ Hops).
Defined.

(** ** What a read changes *)

#[local] Instance log_grows_refl : Reflexive log_grows.
Proof. intros w. by unfold log_grows. Qed.

#[local] Instance log_grows_trans : Transitive log_grows.
Proof. intros w1 w2 w3. unfold log_grows. by etrans. Qed.

#[local] Instance log_grows_store : StoreInvariant log_grows.
Proof. intros w var x. by unfold log_grows. Qed.

Lemma get_log_grows n w obj key r w' :
  get n w obj key = (r, w') → log_grows w w'.
Proof.
  revert w obj key r w'. induction n as [|n IH]; intros w obj key r w'; simpl.
  - by intros [= _ <-].
  - destruct (own w obj key) as [[[i|] d t|o k]|]; try by intros [= _ <-].
    + destruct (run (get n) t (ctor d) (record_new w (obj, key)))
        as [r1 w1] eqn:Hrun.
      apply (run_preserves log_grows) in Hrun; [|apply IH].
      assert (log_grows w w1).
      { etrans; [|exact Hrun]. by apply prefix_app_r. }
      destruct r1 as [[]|e|]; intros [= _ <-]; unfold log_grows in *;
        by rewrite ?constructed_set_instance.
    + apply IH.
Qed.

(** X2: a read never unbinds, rebinds or forgets.  Whatever it does
    (return, throw, or not come back), every property there was before the
    read is there after it, with the getter code and the captured
    [dependency], [this], [other] and [key] it had; an instance that a slot
    held before the read is the one it holds after it; and the
    constructions made before are still the first ones in the log. *)
Theorem read_keeps_bindings fuel w obj key :
  extends w (get fuel w obj key).2 ∧
  constructed w `prefix_of` constructed (get fuel w obj key).2.
Proof.
  split; [eapply grows_extends, get_grows, surjective_pairing|].
  eapply get_log_grows, surjective_pairing.
Qed.

(** ** Keys over the lifetime of a container *)

Lemma copy_keys_prefix this other keys w r w' obj :
  copy_keys this other keys w = (r, w') →
  own_keys w obj `prefix_of` own_keys w' obj.
Proof.
  revert w. induction keys as [|key keys IH]; intros w; simpl.
  - by intros [= _ <-].
  - destruct (has w other key); [|apply IH].
    unfold defineProperty. destruct (has w this key).
    + by intros [= _ <-].
    + intros H. etrans; [|by eapply IH].
      rewrite own_keys_add_property. case_decide as Heq; [subst|done].
      by apply prefix_app_r.
Qed.

Lemma exec_prefix w o obj : own_keys w obj `prefix_of` own_keys (exec w o) obj.
Proof.
  destruct o as [this d|this other|fuel obj' key]; simpl.
  - unfold inject, defineProperty.
    destruct (has w this (getServiceName d)); simpl; [done|].
    rewrite own_keys_add_property. case_decide as Heq; [subst|done].
    by apply prefix_app_r.
  - unfold injectContainer.
    destruct (check_keys w this other (for_in w other)) as [[]| |]; try done.
    destruct (copy_keys this other (for_in w other) w) as [r w1] eqn:E.
    apply (copy_keys_prefix _ _ _ _ _ _ obj) in E. by destruct r.
  - by rewrite (get_same_keys fuel w obj' key _ _ (surjective_pairing _) obj).
Qed.

Lemma exec_all_prefix w ops obj :
  own_keys w obj `prefix_of` own_keys (exec_all w ops) obj.
Proof.
  revert w. induction ops as [|o ops IH]; intros w; simpl; [done|].
  etrans; [apply exec_prefix|apply IH].
Qed.

Lemma insert_sorted_ascending n key l :
  StronglySorted (λ a b, (a.1 ≤ b.1)%N) l →
  StronglySorted (λ a b, (a.1 ≤ b.1)%N) (insert_sorted n key l).
Proof.
  induction l as [|[m k] l IH]; simpl; intros Hl.
  - by repeat constructor.
  - apply StronglySorted_inv in Hl as [Hl Hm].
    destruct (n <? m)%N eqn:E.
    + apply N.ltb_lt in E. constructor; [by constructor|].
      constructor; [simpl; lia|].
      eapply Forall_impl; [exact Hm|]. simpl. intros p Hp. lia.
    + apply N.ltb_ge in E. constructor; [by apply IH|].
      rewrite insert_sorted_perm. constructor; [simpl; lia|done].
Qed.

Lemma index_keys_ascending keys :
  StronglySorted (λ a b, (a.1 ≤ b.1)%N) (index_keys keys).
Proof.
  induction keys as [|key keys IH]; simpl; [constructor|].
  destruct (array_index key); [by apply insert_sorted_ascending|done].
Qed.

Lemma insert_sorted_first n key l :
  Forall (λ p, (n < p.1)%N) l → insert_sorted n key l = (n, key) :: l.
Proof.
  destruct l as [|[m k] l]; simpl; [done|].
  intros [Hm _]%Forall_cons. simpl in Hm.
  by apply N.ltb_lt in Hm as ->.
Qed.

Lemma insert_sorted_sublist n key l1 l2 :
  l1 `sublist_of` l2 →
  StronglySorted (λ a b, (a.1 ≤ b.1)%N) l2 →
  insert_sorted n key l1 `sublist_of` insert_sorted n key l2.
Proof.
  induction 1 as [|[m k] l1 l2 Hsub IH|[m k] l1 l2 Hsub IH]; intros Hl2.
  - done.
  - apply StronglySorted_inv in Hl2 as [Hl2 _]. simpl.
    destruct (n <? m)%N; [by repeat constructor|].
    constructor. by apply IH.
  - apply StronglySorted_inv in Hl2 as [Hl2 Hm]. simpl.
    destruct (n <? m)%N eqn:E.
    + apply N.ltb_lt in E. rewrite insert_sorted_first.
      * by repeat constructor.
      * rewrite Forall_forall in Hm |- *. intros p Hp.
        pose proof (Hm p (elem_of_sublist _ _ _ Hp Hsub)) as Hp2.
        simpl in Hp2. lia.
    + constructor. by apply IH.
Qed.

Lemma index_keys_sublist keys more :
  index_keys keys `sublist_of` index_keys (keys ++ more).
Proof.
  induction keys as [|key keys IH]; simpl; [apply sublist_nil_l|].
  destruct (array_index key); [|done].
  apply insert_sorted_sublist; [done|apply index_keys_ascending].
Qed.

Lemma for_in_sublist w w' obj :
  own_keys w obj `prefix_of` own_keys w' obj →
  for_in w obj `sublist_of` for_in w' obj.
Proof.
  intros [more Hmore]. unfold for_in. rewrite Hmore, filter_app.
  apply sublist_app.
  - apply fmap_sublist, index_keys_sublist.
  - by apply sublist_inserts_r.
Qed.

(** X3: the enumeration of a container is only ever added to.  After any
    sequence of registrations, merges and reads, [for (const key in obj)]
    visits the keys it visited before in the order it visited them, with
    the new keys in between or after: no operation removes a key or changes
    the order of two keys. *)
Theorem enumeration_order_kept w ops obj :
  for_in w obj `sublist_of` for_in (exec_all w ops) obj.
Proof. apply for_in_sublist, exec_all_prefix. Qed.

(** ** Merging: the edge cases *)

(** X5: merging a container that has no property is a no-op: it returns
    the target and the world is the one it was. *)
Theorem injectContainer_empty_source w this other :
  own_keys w other = [] → injectContainer w this other = (Returns this, w).
Proof.
  intros Hempty. unfold injectContainer.
  assert (for_in w other = []) as ->; [|done].
  apply Permutation_nil_r. by rewrite for_in_perm, Hempty.
Qed.

Lemma injectContainer_empty_source_witness :
  own_keys w_ab 1 = [] ∧ injectContainer w_ab 0 1 = (Returns 0, w_ab).
Proof.
  split; [reflexivity|]. apply (injectContainer_empty_source w_ab 0 1). reflexivity.
Defined.

(** X6: merging a container into itself.  The pre-check meets the first
    enumerated key in both roles, so the merge throws for that key and
    changes nothing; only a container with no property can be merged into
    itself, and then nothing happens. *)
Theorem injectContainer_self w this :
  injectContainer w this this =
  match for_in w this with
  | [] => (Returns this, w)
  | key :: _ => (Throws (duplicate_keys key), w)
  end.
Proof.
  unfold injectContainer. destruct (for_in w this) as [|key keys] eqn:E; [done|].
  simpl. assert (has w this key = true) as ->; [|done].
  apply for_in_has. rewrite E. apply list_elem_of_here.
Qed.

(** ** Merging: what the target is bound to afterwards *)

Lemma own_props_eq w w' obj key :
  props w' obj = props w obj → own w' obj key = own w obj key.
Proof. unfold own. by intros ->. Qed.

Lemma has_props_eq w w' obj key :
  props w' obj = props w obj → has w' obj key = has w obj key.
Proof. unfold has. intros H. by rewrite (own_props_eq w w' obj key H). Qed.


Lemma injectContainer_own w this other :
  NoDup (own_keys w other) →
  Forall (λ key, has w this key = false) (own_keys w other) →
  ∃ w',
    injectContainer w this other = (Returns this, w') ∧
    constructed w' = constructed w ∧
    (∀ obj, obj ≠ this → props w' obj = props w obj) ∧
    own_keys w' this = own_keys w this ++ for_in w other ∧
    ∀ key, own w' this key =
      match own w this key with
      | Some g => Some g
      | None => if has w other key then Some (GForward other key) else None
      end.
Proof.
  intros Hnd Hfree.
  destruct (injectContainer_returns w this other Hnd Hfree)
    as (w' & Hmerge & Hc & Hobj & Hthis).
  exists w'. repeat split; try done.
  - unfold own_keys. rewrite Hthis, fmap_app. f_equal.
    rewrite <- list_fmap_compose. by rewrite list_fmap_id.
  - intros key. unfold own at 1. rewrite Hthis, assoc_app, assoc_forwards.
    fold (own w this key). destruct (own w this key); [done|].
    destruct (has w other key) eqn:Ho.
    + rewrite decide_True; [done|by apply for_in_has].
    + rewrite decide_False; [done|]. rewrite for_in_has. congruence.
Qed.

(** X7: a merge copies the keys the source has at that moment.  A service
    registered in the source after the merge is bound in the source only:
    the target does not expose its name, and reading the name through the
    target gives what an unbound name gives. *)
Theorem merge_is_a_snapshot w this other dependency :
  this ≠ other →
  NoDup (own_keys w other) →
  Forall (λ key, has w this key = false) (own_keys w other) →
  has w other (getServiceName dependency) = false →
  has w this (getServiceName dependency) = false →
  ∃ w1 w2,
    injectContainer w this other = (Returns this, w1) ∧
    inject w1 other dependency = (Returns other, w2) ∧
    has w2 other (getServiceName dependency) = true ∧
    has w2 this (getServiceName dependency) = false ∧
    ∀ fuel, get (S fuel) w2 this (getServiceName dependency) =
            (Returns (proto_get (getServiceName dependency)), w2).
Proof.
  intros Hne Hnd Hfree Ho Ht.
  destruct (injectContainer_own w this other Hnd Hfree)
    as (w1 & Hmerge & _ & Hobj & _ & Hown).
  assert (Ho1 : has w1 other (getServiceName dependency) = false).
  { rewrite (has_props_eq w w1); [done|]. by apply Hobj. }
  assert (Ht1 : has w1 this (getServiceName dependency) = false).
  { apply has_false. rewrite Hown. apply has_false in Ht. by rewrite Ht, Ho. }
  exists w1, (add_property w1 other (getServiceName dependency)
                (GLazy None dependency other)).
  split; [done|]. split; [by apply inject_fresh|].
  assert (Ht2 : has (add_property w1 other (getServiceName dependency)
                  (GLazy None dependency other)) this (getServiceName dependency)
                = false).
  { rewrite has_add_property, Ht1.
    rewrite bool_decide_eq_false_2; [done|congruence]. }
  split; [|split; [done|]].
  - rewrite has_add_property. by rewrite bool_decide_eq_true_2, orb_true_r.
  - intros fuel. simpl. apply has_false in Ht2. by rewrite Ht2.
Qed.

Lemma merge_is_a_snapshot_witness :
  1 ≠ 0 ∧ NoDup (own_keys w_a 0) ∧
  Forall (λ key, has w_a 1 key = false) (own_keys w_a 0) ∧
  has w_a 0 "b" = false ∧ has w_a 1 "b" = false ∧
  ∃ w1 w2,
    injectContainer w_a 1 0 = (Returns 1, w1) ∧
    inject w1 0 (Plain "b") = (Returns 0, w2) ∧
    has w2 0 "b" = true ∧
    has w2 1 "b" = false ∧
    ∀ fuel, get (S fuel) w2 1 "b" = (Returns (proto_get "b"), w2).
Proof.
  assert (Hne : 1 ≠ 0) by done.
  assert (Hnd : NoDup (own_keys w_a 0))
    by (apply (bool_decide_unpack _); by vm_compute).
  assert (Hfree : Forall (λ key, has w_a 1 key = false) (own_keys w_a 0))
    by (apply (bool_decide_unpack _); by vm_compute).
  split; [exact Hne|]. split; [exact Hnd|]. split; [exact Hfree|].
  split; [reflexivity|]. split; [reflexivity|].
  exact (merge_is_a_snapshot w_a 1 0 (Plain "b") Hne Hnd Hfree eq_refl eq_refl).
Defined.

(** ** Merges of merges *)

Lemma free_not_bound w this other key :
  Forall (λ key, has w this key = false) (own_keys w other) →
  has w other key = true → has w this key = false.
Proof.
  rewrite Forall_forall. intros Hfree Hkey. by apply Hfree, has_own_keys.
Qed.

(** X8: merges chain.  When [x] is merged into [y] and then [y] into [z],
    all three with different keys, both merges return without constructing
    anything; [z] forwards every key of [x] to [y], which forwards it to
    [x]; and from then on a read of such a key through [z] is the read
    through [x], two getter calls deeper: same outcome, same world after. *)
Theorem merge_of_merge w x y z :
  y ≠ z →
  NoDup (own_keys w x) → NoDup (own_keys w y) →
  Forall (λ key, has w y key = false) (own_keys w x) →
  Forall (λ key, has w z key = false) (own_keys w x ++ own_keys w y) →
  ∃ w1 w2,
    injectContainer w y x = (Returns y, w1) ∧
    injectContainer w1 z y = (Returns z, w2) ∧
    constructed w2 = constructed w ∧
    ∀ key, has w x key = true →
      own w2 z key = Some (GForward y key) ∧
      own w2 y key = Some (GForward x key) ∧
      ∀ w3, extends w2 w3 →
        ∀ fuel, get (S (S fuel)) w3 z key = get fuel w3 x key.
Proof.
  intros Hyz Hndx Hndy Hfy Hfz. apply Forall_app in Hfz as [Hfzx Hfzy].
  destruct (injectContainer_own w y x Hndx Hfy)
    as (w1 & Hm1 & Hc1 & Hobj1 & Hkeys1 & Hown1).
  assert (Hz1 : ∀ key, has w1 z key = has w z key).
  { intros key. apply has_props_eq, Hobj1. congruence. }
  assert (Hnd1 : NoDup (own_keys w1 y)).
  { rewrite Hkeys1. apply NoDup_app. split; [done|]. split.
    - intros k Hk Hk'. apply for_in_has in Hk'.
      apply has_own_keys in Hk. rewrite (free_not_bound w y x k) in Hk; done.
    - by apply for_in_NoDup. }
  assert (Hf1 : Forall (λ key, has w1 z key = false) (own_keys w1 y)).
  { rewrite Hkeys1. apply Forall_app. split.
    - eapply Forall_impl; [exact Hfzy|]. intros k Hk. by rewrite Hz1.
    - rewrite for_in_perm. eapply Forall_impl; [exact Hfzx|].
      intros k Hk. by rewrite Hz1. }
  destruct (injectContainer_own w1 z y Hnd1 Hf1)
    as (w2 & Hm2 & Hc2 & Hobj2 & Hkeys2 & Hown2).
  exists w1, w2. split; [done|]. split; [done|]. split; [congruence|].
  intros key Hkey.
  assert (Hy1 : own w1 y key = Some (GForward x key)).
  { rewrite Hown1, Hkey.
    pose proof (free_not_bound w y x key Hfy Hkey) as ->%has_false. done. }
  assert (Hz2 : own w2 z key = Some (GForward y key)).
  { rewrite Hown2.
    assert (has w1 z key = false) as ->%has_false.
    { rewrite Hz1. by apply (free_not_bound w z x). }
    unfold has. by rewrite Hy1. }
  assert (Hy2 : own w2 y key = Some (GForward x key)).
  { rewrite (own_props_eq w1 w2); [done|]. by apply Hobj2. }
  split; [done|]. split; [done|].
  intros w3 Hext fuel. simpl.
  rewrite (forward_kept _ _ _ _ _ _ Hz2 Hext).
  destruct fuel as [|fuel]; simpl;
    by rewrite (forward_kept _ _ _ _ _ _ Hy2 Hext).
Qed.

Lemma merge_of_merge_witness :
  1 ≠ 2 ∧ NoDup (own_keys w_a_b 0) ∧ NoDup (own_keys w_a_b 1) ∧
  Forall (λ key, has w_a_b 1 key = false) (own_keys w_a_b 0) ∧
  Forall (λ key, has w_a_b 2 key = false) (own_keys w_a_b 0 ++ own_keys w_a_b 1) ∧
  ∃ w1 w2,
    injectContainer w_a_b 1 0 = (Returns 1, w1) ∧
    injectContainer w1 2 1 = (Returns 2, w2) ∧
    constructed w2 = constructed w_a_b ∧
    ∀ key, has w_a_b 0 key = true →
      own w2 2 key = Some (GForward 1 key) ∧
      own w2 1 key = Some (GForward 0 key) ∧
      ∀ w3, extends w2 w3 →
        ∀ fuel, get (S (S fuel)) w3 2 key = get fuel w3 0 key.
Proof.
  assert (Hne : 1 ≠ 2) by done.
  assert (Hx : NoDup (own_keys w_a_b 0))
    by (apply (bool_decide_unpack _); by vm_compute).
  assert (Hy : NoDup (own_keys w_a_b 1))
    by (apply (bool_decide_unpack _); by vm_compute).
  assert (Hfy : Forall (λ key, has w_a_b 1 key = false) (own_keys w_a_b 0))
    by (apply (bool_decide_unpack _); by vm_compute).
  assert (Hfz : Forall (λ key, has w_a_b 2 key = false)
                  (own_keys w_a_b 0 ++ own_keys w_a_b 1))
    by (apply (bool_decide_unpack _); by vm_compute).
  split; [exact Hne|]. split; [exact Hx|]. split; [exact Hy|].
  split; [exact Hfy|]. split; [exact Hfz|].
  exact (merge_of_merge w_a_b 0 1 2 Hne Hx Hy Hfy Hfz).
Defined.





(** ** Chains of registrations *)

Lemma inject_all_app w this deps1 deps2 :
  inject_all w this (deps1 ++ deps2) =
  match inject_all w this deps1 with
  | (Returns this', w') => inject_all w' this' deps2
  | (Throws e, w') => (Throws e, w')
  | (OutOfFuel, w') => (OutOfFuel, w')
  end.
Proof.
  revert w. induction deps1 as [|d deps1 IH]; intros w; simpl; [done|].
  destruct (inject w this d) as [[this'|e|] w1] eqn:E; try done.
  assert (this' = this) as ->; [|apply IH].
  unfold inject, defineProperty in E.
  destruct (has w this (getServiceName d)); by injection E.
Qed.

Lemma inject_all_kept w this deps r w' :
  inject_all w this deps = (r, w') → kept w w'.
Proof.
  revert w. induction deps as [|d deps IH]; intros w; simpl.
  - by intros [= _ <-].
  - destruct (inject w this d) as [[this'|e|] w1] eqn:E.
    + intros H. etrans; [by eapply inject_kept|].
      assert (this' = this) as ->; [|by eapply IH].
      unfold inject, defineProperty in E.
      destruct (has w this (getServiceName d)); by injection E.
    + intros [= _ <-]. by eapply inject_kept.
    + intros [= _ <-]. by eapply inject_kept.
Qed.

Lemma inject_all_returns w this dependencies :
  NoDup (getServiceName <$> dependencies) →
  Forall (λ d, has w this (getServiceName d) = false) dependencies →
  ∃ w',
    inject_all w this dependencies = (Returns this, w') ∧
    constructed w' = constructed w ∧
    (∀ obj, obj ≠ this → props w' obj = props w obj) ∧
    own_keys w' this = own_keys w this ++ (getServiceName <$> dependencies) ∧
    ∀ d, d ∈ dependencies → own w' this (getServiceName d) = Some (GLazy None d this).
Proof.
  revert w. induction dependencies as [|d ds IH]; intros w Hnd Hfree.
  - exists w. simpl. repeat split; try done.
    + by rewrite app_nil_r.
    + intros d Hd. inversion Hd.
  - rewrite fmap_cons in Hnd. apply NoDup_cons in Hnd as [Hd Hnd].
    apply Forall_cons in Hfree as [Hfd Hfree].
    set (w1 := add_property w this (getServiceName d) (GLazy None d this)).
    destruct (IH w1 Hnd) as (w' & Hall & Hc & Hobj & Hkeys & Hown).
    { rewrite Forall_forall in Hfree |- *. intros d' Hd'. unfold w1.
      rewrite has_add_property, (Hfree d' Hd').
      rewrite bool_decide_eq_false_2; [done|].
      intros [= Heq]. apply Hd. rewrite Heq. by apply list_elem_of_fmap_2. }
    exists w'. simpl. rewrite (inject_fresh w this d Hfd). fold w1.
    split; [done|]. split; [done|]. split; [|split].
    + intros obj Hne. rewrite (Hobj obj Hne). unfold w1.
      rewrite props_add_property. by rewrite decide_False.
    + rewrite Hkeys. unfold w1. rewrite own_keys_add_property.
      rewrite decide_True by done. by rewrite <- app_assoc.
    + intros d' [->|Hd']%elem_of_cons; [|by apply Hown].
      apply (inject_all_kept _ _ _ _ _ Hall). unfold w1.
      apply own_add_property_eq. by apply has_false.
Qed.

(** X11: a chain of [inject] calls with pairwise distinct names, none of
    them bound in the container, registers them all: it returns the
    container, constructs nothing, leaves the other containers as they were
    and the properties of the container as they were, binds exactly the
    names of the chain in addition, and binds each of them to the lazy
    getter of its own service, so that each can be read. *)
Theorem inject_all_distinct w this dependencies :
  NoDup (getServiceName <$> dependencies) →
  Forall (λ d, has w this (getServiceName d) = false) dependencies →
  ∃ w',
    inject_all w this dependencies = (Returns this, w') ∧
    constructed w' = constructed w ∧
    (∀ obj, obj ≠ this → props w' obj = props w obj) ∧
    (∀ key g, own w this key = Some g → own w' this key = Some g) ∧
    (∀ key, has w' this key =
            has w this key || bool_decide (key ∈ getServiceName <$> dependencies)) ∧
    ∀ d, d ∈ dependencies → own w' this (getServiceName d) = Some (GLazy None d this).
Proof.
  intros Hnd Hfree.
  destruct (inject_all_returns w this dependencies Hnd Hfree)
    as (w' & Hall & Hc & Hobj & Hkeys & Hown).
  exists w'. split; [done|]. split; [done|]. split; [done|]. split; [|split; [|done]].
  - intros key g. apply (inject_all_kept _ _ _ _ _ Hall).
  - intros key. apply eq_true_iff_eq. rewrite orb_true_iff, bool_decide_eq_true.
    rewrite !has_own_keys, Hkeys, elem_of_app. done.
Qed.

Lemma inject_all_distinct_witness :
  NoDup (getServiceName <$> [Plain "b"; Needs "c" "a"]) ∧
  Forall (λ d, has w_a 0 (getServiceName d) = false) [Plain "b"; Needs "c" "a"] ∧
  ∃ w',
    inject_all w_a 0 [Plain "b"; Needs "c" "a"] = (Returns 0, w') ∧
    constructed w' = constructed w_a ∧
    (∀ obj, obj ≠ 0 → props w' obj = props w_a obj) ∧
    (∀ key g, own w_a 0 key = Some g → own w' 0 key = Some g) ∧
    (∀ key, has w' 0 key =
            has w_a 0 key ||
            bool_decide (key ∈ getServiceName <$> [Plain "b"; Needs "c" "a"])) ∧
    ∀ d, d ∈ [Plain "b"; Needs "c" "a"] →
         own w' 0 (getServiceName d) = Some (GLazy None d 0).
Proof.
  assert (Hnd : NoDup (getServiceName <$> [Plain "b"; Needs "c" "a"]))
    by (apply (bool_decide_unpack _); by vm_compute).
  assert (Hfree : Forall (λ d, has w_a 0 (getServiceName d) = false)
                    [Plain "b"; Needs "c" "a"])
    by (repeat constructor).
  split; [exact Hnd|]. split; [exact Hfree|].
  exact (inject_all_distinct w_a 0 _ Hnd Hfree).
Defined.

(** X12: a chain of [inject] calls is not all-or-nothing.  It ends at the
    first service whose name is bound already, in the container or by an
    earlier call of the chain, with the duplicate-name error for it; the
    services before it stay registered and the ones after it are never
    looked at. *)
Theorem inject_all_stops_at_duplicate w this before d after :
  NoDup (getServiceName <$> before) →
  Forall (λ d, has w this (getServiceName d) = false) before →
  has w this (getServiceName d) = true ∨
    getServiceName d ∈ getServiceName <$> before →
  ∃ w',
    inject_all w this before = (Returns this, w') ∧
    inject_all w this (before ++ d :: after) =
      (Throws (Error ("Duplicate service name: " +:+ getServiceName d)), w') ∧
    ∀ d', d' ∈ before → own w' this (getServiceName d') = Some (GLazy None d' this).
Proof.
  intros Hnd Hfree Hdup.
  destruct (inject_all_returns w this before Hnd Hfree)
    as (w' & Hall & _ & _ & Hkeys & Hown).
  exists w'. split; [done|]. split; [|done].
  rewrite inject_all_app, Hall. simpl. unfold inject.
  assert (has w' this (getServiceName d) = true) as ->; [|done].
  apply has_own_keys. rewrite Hkeys. apply elem_of_app.
  destruct Hdup as [Hw|Hb]; [left; by apply has_own_keys|by right].
Qed.

Lemma inject_all_stops_at_duplicate_witness :
  NoDup (getServiceName <$> [Plain "a"; Plain "b"]) ∧
  Forall (λ d, has empty_world 0 (getServiceName d) = false) [Plain "a"; Plain "b"] ∧
  ∃ w',
    inject_all empty_world 0 [Plain "a"; Plain "b"] = (Returns 0, w') ∧
    inject_all empty_world 0 ([Plain "a"; Plain "b"] ++ Failing "a" "boom" :: [Plain "c"]) =
      (Throws (Error "Duplicate service name: a"), w') ∧
    ∀ d', d' ∈ [Plain "a"; Plain "b"] →
          own w' 0 (getServiceName d') = Some (GLazy None d' 0).
Proof.
  assert (Hnd : NoDup (getServiceName <$> [Plain "a"; Plain "b"]))
    by (apply (bool_decide_unpack _); by vm_compute).
  assert (Hfree : Forall (λ d, has empty_world 0 (getServiceName d) = false)
                    [Plain "a"; Plain "b"])
    by (repeat constructor).
  split; [exact Hnd|]. split; [exact Hfree|].
  apply (inject_all_stops_at_duplicate empty_world 0 [Plain "a"; Plain "b"]
           (Failing "a" "boom") [Plain "c"] Hnd Hfree).
  right. apply list_elem_of_here.
Defined.

(** ** Dependencies *)

Lemma grows_set_instance w obj key d t i :
  own w obj key = Some (GLazy None d t) → grows w (set_instance w (obj, key) i).
Proof.
  intros E. split.
  - intros obj' key' g Hg. rewrite own_set_instance. simpl. rewrite E.
    case_decide as Heq; [|by exists g].
    injection Heq as <- <-. rewrite E in Hg. injection Hg as <-.
    eexists. split; [reflexivity|]. simpl. auto.
  - intros obj' key' Hn. rewrite own_set_instance. simpl. rewrite E.
    case_decide as Heq; [|done]. injection Heq as <- <-. congruence.
Qed.

(** X13: among constructors that only read the container, the dependency
    a constructor gets is the one everybody gets.  When the first read of a
    slot returns and the constructor began by reading [dep], that read
    returned too; and if it returned an instance, then after any further
    registrations, merges and reads, [dep] read on the same container still
    returns that very instance and changes nothing. *)
Theorem dependency_is_shared w obj key A this dep k n v w1 :
  scripted w →
  own w obj key = Some (GLazy None A this) →
  ctor A = Get dep k →
  get n w obj key = (Returns v, w1) →
  ∃ n' vd wd,
    n = S n' ∧
    get n' (record_new w (obj, key)) this dep = (Returns vd, wd) ∧
    ∀ i, vd = VInstance i →
      ∀ ops m, (n' ≤ m)%nat →
        get m (exec_all w1 ops) this dep =
          (Returns (VInstance i), exec_all w1 ops).
Proof.
  intros Hs Hown Hctor Hget.
  destruct (first_read _ _ _ _ _ _ _ _ Hs Hown Hget) as
    (_ & n' & w' & -> & Hrun & Hown' & _ & -> & _); [done|].
  rewrite Hctor in Hrun. simpl in Hrun.
  destruct (get n' (record_new w (obj, key)) this dep) as [[vd|e|] wd] eqn:Hdep;
    try done.
  exists n', vd, wd. split; [done|]. split; [done|].
  intros i -> ops m Hle.
  apply peek_get, (peek_mono n'); [|done].
  eapply peek_extends; [|apply exec_all_extends].
  eapply peek_grows; [|by eapply grows_set_instance].
  eapply peek_grows; [by eapply get_peek|by eapply run_grows].
Qed.

Lemma dependency_is_shared_witness :
  scripted w_needs_b ∧
  own w_needs_b 0 "a" = Some (GLazy None (Needs "a" "b") 0) ∧
  get 2 w_needs_b 0 "a" = (Returns (VInstance 0), (get 2 w_needs_b 0 "a").2) ∧
  ∃ n' vd wd,
    2 = S n' ∧
    get n' (record_new w_needs_b (0, "a")) 0 "b" = (Returns vd, wd) ∧
    ∀ i, vd = VInstance i →
      ∀ ops m, (n' ≤ m)%nat →
        get m (exec_all (get 2 w_needs_b 0 "a").2 ops) 0 "b" =
          (Returns (VInstance i), exec_all (get 2 w_needs_b 0 "a").2 ops).
Proof.
  assert (Hs : scripted w_needs_b).
  { apply scripted_inject; [done|].
    apply scripted_inject; [by intros []|apply scripted_empty]. }
  split; [exact Hs|]. split; [reflexivity|]. split; [reflexivity|].
  apply (dependency_is_shared w_needs_b 0 "a" (Needs "a" "b") 0 "b"
           (λ v, match v with
                 | VUndefined => Throw (Error "missing b")
                 | _ => Done
                 end) 2 (VInstance 0)); [exact Hs|reflexivity..].
Defined.

(** ** Forwarding getters lead somewhere *)

Lemma resolve_extends n w w' obj key s :
  resolve n w obj key = Some s → extends w w' → resolve n w' obj key = Some s.
Proof.
  intros H Hext. revert obj key H.
  induction n as [|n IH]; intros obj key; simpl; [done|].
  destruct (own w obj key) as [[o d t|o k]|] eqn:E; [| |done].
  - destruct (lazy_kept _ _ _ _ _ _ _ E Hext) as [o' ->]. done.
  - rewrite (forward_kept _ _ _ _ _ _ E Hext). apply IH.
Qed.

Lemma grounded_add_lazy w obj name d t :
  grounded w → grounded (add_property w obj name (GLazy None d t)).
Proof.
  intros Hg obj' key Hhas. apply has_true in Hhas as [g Hown].
  rewrite own_add_property in Hown.
  destruct (own w obj' key) as [g0|] eqn:E.
  - destruct (Hg obj' key) as (n & s & Hr); [apply has_true; by eexists|].
    exists n, s. eapply resolve_extends; [done|apply extends_add_property].
  - case_decide as Heq; [|done]. injection Heq as <- <-.
    exists 1, (obj, name). simpl.
    by rewrite own_add_property, E, decide_True.
Qed.

Lemma grounded_add_forward w obj name other :
  has w other name = true →
  grounded w → grounded (add_property w obj name (GForward other name)).
Proof.
  intros Hother Hg obj' key Hhas. apply has_true in Hhas as [g Hown].
  rewrite own_add_property in Hown.
  destruct (own w obj' key) as [g0|] eqn:E.
  - destruct (Hg obj' key) as (n & s & Hr); [apply has_true; by eexists|].
    exists n, s. eapply resolve_extends; [done|apply extends_add_property].
  - case_decide as Heq; [|done]. injection Heq as <- <-.
    destruct (Hg other name Hother) as (n & s & Hr).
    exists (S n), s. simpl. rewrite own_add_property, E, decide_True by done.
    eapply resolve_extends; [done|apply extends_add_property].
Qed.

Lemma copy_keys_grounded this other keys w r w' :
  copy_keys this other keys w = (r, w') → grounded w → grounded w'.
Proof.
  revert w. induction keys as [|key keys IH]; intros w; simpl.
  - by intros [= _ <-].
  - destruct (has w other key) eqn:Ho; [|apply IH].
    unfold defineProperty. destruct (has w this key).
    + by intros [= _ <-].
    + intros H Hg. eapply IH; [done|by apply grounded_add_forward].
Qed.

Lemma exec_grounded w o : grounded w → grounded (exec w o).
Proof.
  intros Hg. destruct o as [this d|this other|fuel obj key]; simpl.
  - unfold inject, defineProperty.
    destruct (has w this (getServiceName d)); simpl;
      [done|by apply grounded_add_lazy].
  - unfold injectContainer.
    destruct (check_keys w this other (for_in w other)) as [[]| |]; try done.
    destruct (copy_keys this other (for_in w other) w) as [r w1] eqn:E.
    apply copy_keys_grounded in E; [|done]. by destruct r.
  - destruct (get_grows fuel w obj key _ _ (surjective_pairing _)) as [Hext Hnone].
    intros obj' key' Hhas.
    destruct (Hg obj' key') as (n & s & Hr).
    + destruct (has w obj' key') eqn:E; [done|].
      apply has_false, Hnone, has_false in E. congruence.
    + exists n, s. by eapply resolve_extends.
Qed.

Lemma resolve_lazy n w obj key s :
  resolve n w obj key = Some s → ∃ d t o, own w s.1 s.2 = Some (GLazy o d t).
Proof.
  revert obj key. induction n as [|n IH]; intros obj key; simpl; [done|].
  destruct (own w obj key) as [[o d t|o k]|] eqn:E; [| |done].
  - intros [= <-]. by exists d, t, o.
  - apply IH.
Qed.

Lemma reachable_grounded ops : grounded (exec_all empty_world ops).
Proof.
  assert (Hg : ∀ w, grounded w → grounded (exec_all w ops)).
  { induction ops as [|o ops IH]; intros w Hw; simpl; [done|].
    by apply IH, exec_grounded. }
  apply Hg. intros obj key H. unfold has, own, props in H. simpl in H.
  by rewrite lookup_empty in H.
Qed.

(** X14: forwarding getters never dangle and never loop.  In every world
    the operations make from the empty one, every bound key of every
    container leads, through finitely many forwarding getters, to a slot
    made by [inject], whose getter is the lazy one. *)
Theorem bound_keys_are_grounded ops obj key :
  has (exec_all empty_world ops) obj key = true →
  ∃ n s d t o,
    resolve n (exec_all empty_world ops) obj key = Some s ∧
    own (exec_all empty_world ops) s.1 s.2 = Some (GLazy o d t).
Proof.
  intros Hhas. destruct (reachable_grounded ops obj key Hhas) as (n & s & Hr).
  destruct (resolve_lazy _ _ _ _ _ Hr) as (d & t & o & Hs).
  by exists n, s, d, t, o.
Qed.

Lemma bound_keys_are_grounded_witness :
  has (exec_all empty_world [Inject 0 (Plain "a"); InjectContainer 1 0;
                             InjectContainer 2 1]) 2 "a" = true ∧
  ∃ n s d t o,
    resolve n (exec_all empty_world [Inject 0 (Plain "a"); InjectContainer 1 0;
                                     InjectContainer 2 1]) 2 "a" = Some s ∧
    own (exec_all empty_world [Inject 0 (Plain "a"); InjectContainer 1 0;
                               InjectContainer 2 1]) s.1 s.2 = Some (GLazy o d t).
Proof.
  split; [reflexivity|].
  apply (bound_keys_are_grounded
           [Inject 0 (Plain "a"); InjectContainer 1 0; InjectContainer 2 1] 2 "a").
  reflexivity.
Defined.

(** X16: a bound name never reads as [undefined].  In every world the
    operations make from the empty one, a read of a bound key that returns,
    on the container itself or through any number of merges, returns a
    service instance, never [undefined] and never an inherited member. *)
Theorem bound_read_returns_instance ops obj key n v w' :
  has (exec_all empty_world ops) obj key = true →
  get n (exec_all empty_world ops) obj key = (Returns v, w') →
  ∃ i, v = VInstance i.
Proof.
  intros Hhas. destruct (reachable_grounded ops obj key Hhas) as (m & s & Hr).
  clear Hhas. revert Hr. generalize (exec_all empty_world ops). intros w.
  revert m obj key. induction n as [|n IH]; intros m obj key; simpl; [done|].
  destruct m as [|m]; simpl; [done|].
  destruct (own w obj key) as [[[i|] d t|o k]|] eqn:E; try done.
  - intros _ [= <- _]. by eexists.
  - intros _. destruct (run _ _ _ _) as [[[]|e|] w1]; intros [= <- _]; by eexists.
  - intros Hr. by apply (IH m).
Qed.

Lemma bound_read_returns_instance_witness :
  has (exec_all empty_world [Inject 0 (Plain "a"); InjectContainer 1 0]) 1 "a" = true ∧
  get 2 (exec_all empty_world [Inject 0 (Plain "a"); InjectContainer 1 0]) 1 "a" =
    (Returns (VInstance 0),
     (get 2 (exec_all empty_world [Inject 0 (Plain "a"); InjectContainer 1 0]) 1 "a").2) ∧
  ∃ i, VInstance 0 = VInstance i.
Proof.
  split; [reflexivity|]. split; [reflexivity|].
  apply (bound_read_returns_instance [Inject 0 (Plain "a"); InjectContainer 1 0]
           1 "a" 2 (VInstance 0)
           (get 2 (exec_all empty_world [Inject 0 (Plain "a"); InjectContainer 1 0])
                1 "a").2); reflexivity.
Defined.

(** ** Circular dependencies *)

(** X15: a dependency cycle is not detected and never resolves.  When the
    constructor of [ka] begins by reading [kb] and the constructor of [kb]
    begins by reading [ka], both unresolved slots of one container (or one
    slot that reads itself), a read of [ka] yields no instance and no
    exception of the services, whatever the fuel: the getters nest without
    end. *)
Theorem circular_dependency_never_resolves w this A B ka kb kA kB fuel :
  own w this ka = Some (GLazy None A this) →
  own w this kb = Some (GLazy None B this) →
  ctor A = Get kb kA →
  ctor B = Get ka kB →
  (get fuel w this ka).1 = OutOfFuel.
Proof.
  intros HA HB HcA HcB.
  set (pa := Pending (this, ka) A this kb kA).
  set (pb := Pending (this, kb) B this ka kB).
  apply (cycle_diverges [pa; pb] w) with (p := pa); [|done|apply list_elem_of_here].
  intros p [->|[->|Hp]%elem_of_cons]%elem_of_cons.
  - split; [split; [done|]|].
    + intros u m _. right. simpl. by rewrite HcA.
    + exists pb. split; [apply list_elem_of_further, list_elem_of_here|].
      apply route_here.
  - split; [split; [done|]|].
    + intros u m _. right. simpl. by rewrite HcB.
    + exists pa. split; [apply list_elem_of_here|apply route_here].
  - inversion Hp.
Qed.

Lemma circular_dependency_never_resolves_witness :
  own w_selfish 0 "a" = Some (GLazy None (Needs "a" "a") 0) ∧
  (get 7 w_selfish 0 "a").1 = OutOfFuel.
Proof.
  split; [reflexivity|].
  apply (circular_dependency_never_resolves w_selfish 0 (Needs "a" "a") (Needs "a" "a")
           "a" "a"
           (λ v, match v with
                 | VUndefined => Throw (Error "missing a")
                 | _ => Done
                 end)
           (λ v, match v with
                 | VUndefined => Throw (Error "missing a")
                 | _ => Done
                 end) 7); reflexivity.
Defined.

(** * The compile-time checks and the run-time checks *)

Lemma typed_has w obj T key :
  typed w obj T → (key ∈ T ↔ has w obj key = true ∨ key ∈ keyof_DiContainer).
Proof.
  intros (_ & _ & ->). rewrite elem_of_union, elem_of_list_to_set.
  by rewrite has_own_keys.
Qed.

(** X17: what the type of [inject] accepts, the call does.  If the static
    type describes the container and [Append] gives an object type for the
    name of the service, then [inject] returns the container, and the type
    [Append] gave describes it afterwards. *)
Theorem typed_inject w this dependency T T' :
  typed w this T →
  Append T (getServiceName dependency) = SObject T' →
  ∃ w', inject w this dependency = (Returns this, w') ∧ typed w' this T'.
Proof.
  intros Ht. pose proof Ht as (Hnd & Hmeth & HT). unfold Append, CheckReservedField.
  destruct (decide (getServiceName dependency ∈ T)) as [|Hnew]; [done|].
  destruct (decide (getServiceName dependency ∈ keyof_DiContainer)) as [|Hres];
    [done|].
  intros [= <-].
  assert (Hfree : has w this (getServiceName dependency) = false).
  { destruct (has w this (getServiceName dependency)) eqn:E; [|done].
    exfalso. apply Hnew. apply (typed_has w this); [done|by left]. }
  eexists. split; [by apply inject_fresh|].
  unfold typed. rewrite own_keys_add_property, decide_True by done.
  split; [|split].
  - apply NoDup_app. split; [done|]. split; [|apply NoDup_singleton].
    intros k Hk ->%list_elem_of_singleton. apply has_own_keys in Hk. congruence.
  - apply Forall_app. split; [done|]. by apply Forall_singleton.
  - rewrite HT. simpl. rewrite list_to_set_app_L. simpl. set_unfold. intros x. tauto.
Qed.

Lemma typed_inject_witness :
  typed w_a 0 T_a ∧ Append T_a (getServiceName (Plain "b")) = SObject (T_a ∪ {["b"]}) ∧
  ∃ w', inject w_a 0 (Plain "b") = (Returns 0, w') ∧ typed w' 0 (T_a ∪ {["b"]}).
Proof.
  assert (Ht : typed w_a 0 T_a).
  { split; [apply (bool_decide_unpack _); by vm_compute|].
    split; [apply (bool_decide_unpack _); by vm_compute|reflexivity]. }
  assert (HA : Append T_a (getServiceName (Plain "b")) = SObject (T_a ∪ {["b"]}))
    by (apply (bool_decide_unpack _); by vm_compute).
  split; [exact Ht|]. split; [exact HA|].
  exact (typed_inject w_a 0 (Plain "b") T_a _ Ht HA).
Defined.

(** X18: the two checks disagree on the names of the methods.  For a
    container its type describes and a service named "inject" or
    "injectContainer", [Append] answers with the duplicate-name message (the
    name is a key of the container type, so the reserved-name branch is not
    reached), while the call of [inject] returns and binds the name. *)
Theorem typed_inject_method_name w this dependency T :
  typed w this T →
  getServiceName dependency ∈ keyof_DiContainer →
  Append T (getServiceName dependency) =
    SLiterals {["Duplicate service name: " +:+ getServiceName dependency]} ∧
  ∃ w', inject w this dependency = (Returns this, w') ∧
        has w' this (getServiceName dependency) = true.
Proof.
  intros Ht Hmeth. split.
  - unfold Append. rewrite decide_True; [done|].
    apply (typed_has w this); [done|by right].
  - destruct Ht as (_ & Hnone & _). rewrite Forall_forall in Hnone.
    assert (Hfree : has w this (getServiceName dependency) = false).
    { destruct (has w this (getServiceName dependency)) eqn:E; [|done].
      apply has_own_keys in E. by destruct (Hnone _ E). }
    eexists. split; [by apply inject_fresh|].
    rewrite has_add_property. by rewrite bool_decide_eq_true_2, orb_true_r.
Qed.

Lemma typed_inject_method_name_witness :
  typed w_a 0 T_a ∧ getServiceName (Plain "inject") ∈ keyof_DiContainer ∧
  Append T_a "inject" = SLiterals {["Duplicate service name: inject"]} ∧
  ∃ w', inject w_a 0 (Plain "inject") = (Returns 0, w') ∧
        has w' 0 "inject" = true.
Proof.
  assert (Ht : typed w_a 0 T_a).
  { split; [apply (bool_decide_unpack _); by vm_compute|].
    split; [apply (bool_decide_unpack _); by vm_compute|reflexivity]. }
  assert (Hm : getServiceName (Plain "inject") ∈ keyof_DiContainer)
    by (apply (bool_decide_unpack _); by vm_compute).
  split; [exact Ht|]. split; [exact Hm|].
  exact (typed_inject_method_name w_a 0 (Plain "inject") T_a Ht Hm).
Defined.

Lemma injectContainer_collision w this other key :
  has w this key = true → has w other key = true →
  ∃ k, injectContainer w this other = (Throws (duplicate_keys k), w) ∧
       has w this k = true ∧ has w other k = true.
Proof.
  intros Ht Ho. unfold injectContainer.
  destruct (check_keys w this other (for_in w other)) as [[]|e|] eqn:Hcheck.
  - exfalso. rewrite check_keys_returns in Hcheck.
    rewrite (Hcheck key) in Ht; [done| |done]. by apply for_in_has.
  - apply check_keys_throws in Hcheck
      as (pre & k & post & _ & -> & Hko & Hkt & _).
    by exists k.
  - by apply check_keys_not_diverging in Hcheck.
Qed.

Lemma typed_common w this other T1 T2 key :
  typed w this T1 → typed w other T2 →
  key ∈ (T1 ∖ {["inject"; "injectContainer"]}) ∩ (T2 ∖ {["inject"; "injectContainer"]}) ↔
  has w this key = true ∧ has w other key = true.
Proof.
  intros H1 H2. rewrite elem_of_intersection, !elem_of_difference.
  rewrite (typed_has w this T1 key H1), (typed_has w other T2 key H2).
  fold keyof_DiContainer. split; [tauto|]. intros [Ht Ho].
  destruct H1 as (_ & Hm1 & _). rewrite Forall_forall in Hm1.
  pose proof (Hm1 key (proj1 (has_own_keys _ _ _) Ht)). tauto.
Qed.

(** X19: what the type of [injectContainer] accepts, the call does.  If the
    static types describe the two containers and [Merge] gives an object
    type, then the merge returns the target, and the type [Merge] gave
    describes it afterwards. *)
Theorem typed_merge w this other T1 T2 T' :
  typed w this T1 → typed w other T2 →
  Merge T1 T2 = SObject T' →
  ∃ w', injectContainer w this other = (Returns this, w') ∧ typed w' this T'.
Proof.
  intros H1 H2. unfold Merge. simpl.
  destruct (decide (_ = ∅)) as [Hempty|]; [|done]. intros [= <-].
  assert (Hfree : Forall (λ key, has w this key = false) (own_keys w other)).
  { apply Forall_forall. intros key Hkey%has_own_keys.
    destruct (has w this key) eqn:Ht; [|done]. exfalso.
    assert (Hin : key ∈ (T1 ∖ {["inject"; "injectContainer"]}) ∩
                        (T2 ∖ {["inject"; "injectContainer"]}))
      by (by apply (typed_common w this other)).
    rewrite Hempty in Hin. by apply not_elem_of_empty in Hin. }
  destruct H1 as (Hnd1 & Hm1 & ->), H2 as (Hnd2 & Hm2 & ->).
  destruct (injectContainer_own w this other Hnd2 Hfree)
    as (w' & Hmerge & _ & _ & Hkeys & _).
  exists w'. split; [done|]. unfold typed. rewrite Hkeys. split; [|split].
  - apply NoDup_app. split; [done|]. split; [|by apply for_in_NoDup].
    intros k Hk Hk'. apply for_in_has in Hk'. apply has_own_keys in Hk.
    rewrite Forall_forall in Hfree.
    rewrite (Hfree k) in Hk; [done|by apply has_own_keys].
  - apply Forall_app. split; [done|]. by rewrite for_in_perm.
  - rewrite list_to_set_app_L.
    rewrite (list_to_set_perm_L (for_in w other) (own_keys w other))
      by apply for_in_perm.
    set_unfold. intros x. tauto.
Qed.

Lemma typed_merge_witness :
  typed w_a_b 1 T_b ∧ typed w_a_b 0 T_a ∧
  Merge T_b T_a = SObject (T_b ∪ T_a) ∧
  ∃ w', injectContainer w_a_b 1 0 = (Returns 1, w') ∧ typed w' 1 (T_b ∪ T_a).
Proof.
  assert (H1 : typed w_a_b 1 T_b).
  { split; [apply (bool_decide_unpack _); by vm_compute|].
    split; [apply (bool_decide_unpack _); by vm_compute|reflexivity]. }
  assert (H0 : typed w_a_b 0 T_a).
  { split; [apply (bool_decide_unpack _); by vm_compute|].
    split; [apply (bool_decide_unpack _); by vm_compute|reflexivity]. }
  assert (HM : Merge T_b T_a = SObject (T_b ∪ T_a))
    by (apply (bool_decide_unpack _); by vm_compute).
  split; [exact H1|]. split; [exact H0|]. split; [exact HM|].
  exact (typed_merge w_a_b 1 0 T_b T_a _ H1 H0 HM).
Defined.

(** X20: what the type of [injectContainer] refuses, the call refuses, and
    the type says more.  If the static types describe the two containers and
    [Merge] gives messages, there is one message for each name bound in both
    containers; the call throws, changes nothing, and its error carries one
    of these messages. *)
Theorem typed_merge_error w this other T1 T2 M :
  typed w this T1 → typed w other T2 →
  Merge T1 T2 = SLiterals M →
  (∀ m, m ∈ M ↔
        ∃ key, has w this key = true ∧ has w other key = true ∧
               m = "Containers have duplicated keys: " +:+ key) ∧
  ∃ key, injectContainer w this other = (Throws (duplicate_keys key), w) ∧
         exn_message (duplicate_keys key) ∈ M.
Proof.
  intros H1 H2. unfold Merge. simpl.
  destruct (decide (_ = ∅)) as [|Hcommon]; [done|]. intros [= <-].
  assert (HM : ∀ m,
    m ∈ (set_map (λ key, "Containers have duplicated keys: " +:+ key)
           ((T1 ∖ {["inject"; "injectContainer"]}) ∩
            (T2 ∖ {["inject"; "injectContainer"]})) : gset string) ↔
    ∃ key, has w this key = true ∧ has w other key = true ∧
           m = "Containers have duplicated keys: " +:+ key).
  { intros m. rewrite elem_of_map. split.
    - intros (key & -> & Hkey). exists key.
      apply (typed_common w this other) in Hkey; [|done|done]. tauto.
    - intros (key & Ht & Ho & ->). exists key. split; [done|].
      by apply (typed_common w this other). }
  split; [exact HM|].
  apply set_choose_L in Hcommon as [key Hkey].
  apply (typed_common w this other) in Hkey as [Ht Ho]; [|done|done].
  destruct (injectContainer_collision w this other key Ht Ho) as (k & Hk & Hkt & Hko).
  exists k. split; [done|]. apply HM. by exists k.
Qed.

Lemma typed_merge_error_witness :
  typed w_both 0 (list_to_set ["logger"; "random"] ∪ keyof_DiContainer) ∧
  typed w_both 1 (list_to_set ["logger"; "random"] ∪ keyof_DiContainer) ∧
  ∃ M,
    Merge (list_to_set ["logger"; "random"] ∪ keyof_DiContainer)
          (list_to_set ["logger"; "random"] ∪ keyof_DiContainer) = SLiterals M ∧
    (∀ m, m ∈ M ↔
          ∃ key, has w_both 0 key = true ∧ has w_both 1 key = true ∧
                 m = "Containers have duplicated keys: " +:+ key) ∧
    ∃ key, injectContainer w_both 0 1 = (Throws (duplicate_keys key), w_both) ∧
           exn_message (duplicate_keys key) ∈ M.
Proof.
  assert (H0 : typed w_both 0 (list_to_set ["logger"; "random"] ∪ keyof_DiContainer)).
  { split; [apply (bool_decide_unpack _); by vm_compute|].
    split; [apply (bool_decide_unpack _); by vm_compute|reflexivity]. }
  assert (H1 : typed w_both 1 (list_to_set ["logger"; "random"] ∪ keyof_DiContainer)).
  { split; [apply (bool_decide_unpack _); by vm_compute|].
    split; [apply (bool_decide_unpack _); by vm_compute|reflexivity]. }
  split; [exact H0|]. split; [exact H1|].
  eexists. split; [reflexivity|].
  exact (typed_merge_error w_both 0 1 _ _ _ H0 H1 eq_refl).
Defined.

(** * The greeting *)

Lemma append_bang_inj a b : a +:+ "!" = b +:+ "!" → a = b.
Proof.
  revert b. induction a as [|c a IH]; intros [|c' b]; simpl; try done.
  - intros [= _ H]. by destruct b.
  - intros [= _ H]. by destruct a.
  - intros [= -> H]. f_equal. by apply IH.
Qed.

(** X21: the greeting tells the names apart, and a call without a name
    greets "World": two greetings are the same text only for the same name,
    and [hello()] is [hello('World')]. *)
Theorem hello_inj a b :
  hello (Some a) = hello (Some b) →
  a = b ∧ hello None = hello (Some "World").
Proof.
  unfold hello. simpl. intros [= H]. split; [by apply append_bang_inj|done].
Qed.

Lemma hello_inj_witness :
  hello (Some "TypeScript") = hello (Some "TypeScript") ∧
  "TypeScript" = "TypeScript" ∧ hello None = hello (Some "World").
Proof.
  split; [reflexivity|]. apply (hello_inj "TypeScript" "TypeScript"). reflexivity.
Defined.
